(** * chrome-mcp-wrapper: dialog monitor, session registry and MCP tool client

    Part I is a shallow embedding of
    - [src/dialog/DialogDetector.ts] (module [Dialog]),
    - [src/session/ChromeSession.ts] and [src/session/SessionManager.ts]
      (module [Session]),
    - the [ChromeMCPClient] class of [src/mcp/tools.ts] (module [Mcp]).
    Part II holds the predicates and the sample inputs the statements use,
    Part III the properties.

    JavaScript numbers are IEEE 754 binary64 values and are modelled by
    Rocq's primitive floats. An [async] method is split at its [await]s into
    the part that runs when the method is called and the parts that run when
    the awaited promise settles, so that an interleaving of the event loop is
    a sequence of steps. What the world outside decides (what a capture
    produces, what a callback does when it is called, whether a connection
    attempt succeeds, what the remote tool answers, in which order tasks
    settle) is an input of the step it decides. Timers are Node's: the delay
    of a timer is what Node's [setInterval] makes of its argument. *)

From Stdlib Require Import Floats ZArith Uint63.
From Stdlib.Strings Require Import Byte Ascii String.
From stdpp Require Import gmap strings list pretty.

(* ===================================================================== *)
(** * Part I: the embedding                                               *)
(* ===================================================================== *)

(** ** JavaScript values used by the three classes *)
Module Js.

(** What a [throw] carries, as far as [catch] blocks of the source look at
    it: an [Error] instance with its [message], or any other value with
    the text [String(value)] gives. *)
Inductive Thrown : Type :=
| ErrorObject (message : string)
| OtherValue (text : string).

(** [error instanceof Error ? error.message : String(error)] *)
Definition message_of (e : Thrown) : string :=
  match e with
  | ErrorObject m => m
  | OtherValue t => t
  end.

(** [ToBoolean] on a number: [0], [-0] and [NaN] are falsy. *)
Definition truthy (x : float) : bool :=
  negb (PrimFloat.is_nan x || PrimFloat.is_zero x).

(** [x || d] where [x] is an optional number ([None] is [undefined]). *)
Definition or_number (x : option float) (d : float) : float :=
  match x with
  | Some v => if truthy v then v else d
  | None => d
  end.

(** [x || d] where [x] is an optional string: the empty string is falsy. *)
Definition or_string (x : option string) (d : string) : string :=
  match x with
  | Some EmptyString => d
  | Some s => s
  | None => d
  end.

Definition Math_abs (x : float) : float := PrimFloat.abs x.

(** [Math.max(a, b)]: [NaN] if either is [NaN]; [+0] is larger than [-0]. *)
Definition Math_max (a b : float) : float :=
  if PrimFloat.is_nan a || PrimFloat.is_nan b then PrimFloat.nan
  else if PrimFloat.ltb a b then b
  else if PrimFloat.ltb b a then a
  else if PrimFloat.is_zero a && PrimFloat.get_sign a then b
  else a.

(** A [Buffer] is a byte array. *)
Definition Buffer : Type := list byte.

(** [buffer.length], a number: the conversion is exact below 2^53, which is
    more than the longest [Buffer] Node allocates. *)
Definition Buffer_length (b : Buffer) : float :=
  PrimFloat.of_uint63 (Uint63.of_Z (Z.of_nat (length b))).

(** The double-quote character, used inside messages. *)
Definition dquote : string := String "034"%char EmptyString.

End Js.

(** ** DialogDetector.ts *)
Module Dialog.
Import Js.

Record DialogDetectionOptions : Type := {
  opt_screenshotInterval : option float;
  opt_diffThreshold : option float;
  opt_screenshotDir : option string
}.

(** A [Date] is kept as the text [toISOString()] returns for it. *)
Definition Date : Type := string.

Record DialogDetectionResult : Type := {
  detected : bool;
  screenshotPath : option string;
  timestamp : Date
}.

(** The function handed to [startMonitoring], known by its identity. What
    it does when it is called is an input of the step that calls it
    ([CallbackRun] below). *)
Definition Callback : Type := nat.
Definition TimerId : Type := nat.

Record DialogDetector : Type := {
  screenshotInterval : float;
  diffThreshold : float;
  screenshotDir : string;
  monitoring : bool;
  monitorTimer : option TimerId;
  previousScreenshot : option Buffer;
  detectionCallback : option Callback
}.

(** 0.1, the nearest binary64 value *)
Definition default_diffThreshold : float := 0x1.999999999999ap-4%float.
Definition default_screenshotInterval : float := 5000%float.
Definition default_screenshotDir : string := "./screenshots".

(** [constructor(options?)] *)
Definition constructor (options : option DialogDetectionOptions) : DialogDetector :=
  {| screenshotInterval :=
       or_number (options ≫= opt_screenshotInterval) default_screenshotInterval;
     diffThreshold :=
       or_number (options ≫= opt_diffThreshold) default_diffThreshold;
     screenshotDir :=
       or_string (options ≫= opt_screenshotDir) default_screenshotDir;
     monitoring := false;
     monitorTimer := None;
     previousScreenshot := None;
     detectionCallback := None |}.

(** Field assignments [this.f = v]. *)
Definition set_screenshotInterval (v : float) (d : DialogDetector) : DialogDetector :=
  {| screenshotInterval := v; diffThreshold := diffThreshold d;
     screenshotDir := screenshotDir d; monitoring := monitoring d;
     monitorTimer := monitorTimer d; previousScreenshot := previousScreenshot d;
     detectionCallback := detectionCallback d |}.

Definition set_diffThreshold (v : float) (d : DialogDetector) : DialogDetector :=
  {| screenshotInterval := screenshotInterval d; diffThreshold := v;
     screenshotDir := screenshotDir d; monitoring := monitoring d;
     monitorTimer := monitorTimer d; previousScreenshot := previousScreenshot d;
     detectionCallback := detectionCallback d |}.

Definition set_monitoring (v : bool) (d : DialogDetector) : DialogDetector :=
  {| screenshotInterval := screenshotInterval d; diffThreshold := diffThreshold d;
     screenshotDir := screenshotDir d; monitoring := v;
     monitorTimer := monitorTimer d; previousScreenshot := previousScreenshot d;
     detectionCallback := detectionCallback d |}.

Definition set_monitorTimer (v : option TimerId) (d : DialogDetector) : DialogDetector :=
  {| screenshotInterval := screenshotInterval d; diffThreshold := diffThreshold d;
     screenshotDir := screenshotDir d; monitoring := monitoring d;
     monitorTimer := v; previousScreenshot := previousScreenshot d;
     detectionCallback := detectionCallback d |}.

Definition set_previousScreenshot (v : option Buffer) (d : DialogDetector) : DialogDetector :=
  {| screenshotInterval := screenshotInterval d; diffThreshold := diffThreshold d;
     screenshotDir := screenshotDir d; monitoring := monitoring d;
     monitorTimer := monitorTimer d; previousScreenshot := v;
     detectionCallback := detectionCallback d |}.

Definition set_detectionCallback (v : option Callback) (d : DialogDetector) : DialogDetector :=
  {| screenshotInterval := screenshotInterval d; diffThreshold := diffThreshold d;
     screenshotDir := screenshotDir d; monitoring := monitoring d;
     monitorTimer := monitorTimer d; previousScreenshot := previousScreenshot d;
     detectionCallback := v |}.

(** *** detectDialog *)

(** [Math.abs(prevSize - currentSize) / Math.max(prevSize, currentSize)] *)
Definition sizeDiff (prev current : Buffer) : float :=
  let prevSize := Buffer_length prev in
  let currentSize := Buffer_length current in
  PrimFloat.div (Math_abs (PrimFloat.sub prevSize currentSize))
                (Math_max prevSize currentSize).

(** [detectDialog(prev, current)]: [sizeDiff > this.diffThreshold]. *)
Definition detectDialog (d : DialogDetector) (prev current : Buffer) : bool :=
  PrimFloat.ltb (diffThreshold d) (sizeDiff prev current).

(** *** setDiffThreshold *)

Definition threshold_error : Thrown :=
  ErrorObject "Threshold must be between 0 and 1".

(** [threshold < 0 || threshold > 1] *)
Definition out_of_range (threshold : float) : bool :=
  PrimFloat.ltb threshold 0 || PrimFloat.ltb 1 threshold.

(** [setDiffThreshold(threshold)]: [inl e] is [throw e]. *)
Definition setDiffThreshold (threshold : float) (d : DialogDetector)
  : Thrown + DialogDetector :=
  if out_of_range threshold then inl threshold_error
  else inr (set_diffThreshold threshold d).

(** *** The monitor in its event loop

    [takeScreenshot] is the capture capability. In the source it is a stub
    that logs and returns [Buffer.from('')]; the steps below take what the
    capture produced as an input, the stub being the instance that always
    produces [takeScreenshot_stub]. *)
Definition takeScreenshot_stub : Buffer := [].

Inductive Capture : Type :=
| Captured (b : Buffer)
| CaptureFailed (e : Thrown).

Inductive ConsoleLine : Type :=
| WarnAlreadyRunning        (* 'Dialog detection monitoring is already running' *)
| WarnNotRunning            (* 'Dialog detection monitoring is not running' *)
| LogStarted (interval : float)
| LogStopped
| LogTakingScreenshot
| LogSizeDiff (diff : float)
| LogSavedTo (filepath : string)
| LogDetected (filepath : string)
| ErrorDuringDetection (e : Thrown).

(** A computation of the detector parked at an [await]. *)
Inductive Suspended : Type :=
| AwaitStartCapture
    (* startMonitoring at [await this.takeScreenshot()] *)
| AwaitCheckCapture
    (* checkForDialog at [await this.takeScreenshot()] *)
| AwaitCheckSave (currentScreenshot : Buffer) (screenshotPath : string).
    (* checkForDialog at [await this.saveScreenshot(currentScreenshot)] *)

Record World : Type := {
  detector : DialogDetector;
  timers : gmap TimerId float;      (* live [setInterval] timers and their delay in Node *)
  nextTimer : TimerId;
  suspended : list Suspended;
  console : list ConsoleLine;
  delivered : list (Callback * DialogDetectionResult)
}.

Definition new_world (options : option DialogDetectionOptions) : World :=
  {| detector := constructor options; timers := ∅; nextTimer := 0;
     suspended := []; console := []; delivered := [] |}.

Definition with_detector (f : DialogDetector → DialogDetector) (w : World) : World :=
  {| detector := f (detector w); timers := timers w; nextTimer := nextTimer w;
     suspended := suspended w; console := console w; delivered := delivered w |}.

Definition print (l : ConsoleLine) (w : World) : World :=
  {| detector := detector w; timers := timers w; nextTimer := nextTimer w;
     suspended := suspended w; console := console w ++ [l]; delivered := delivered w |}.

Definition park (s : Suspended) (w : World) : World :=
  {| detector := detector w; timers := timers w; nextTimer := nextTimer w;
     suspended := suspended w ++ [s]; console := console w; delivered := delivered w |}.

Definition unpark (k : nat) (w : World) : World :=
  {| detector := detector w; timers := timers w; nextTimer := nextTimer w;
     suspended := delete k (suspended w); console := console w; delivered := delivered w |}.

Definition deliver (cb : Callback) (r : DialogDetectionResult) (w : World) : World :=
  {| detector := detector w; timers := timers w; nextTimer := nextTimer w;
     suspended := suspended w; console := console w;
     delivered := delivered w ++ [(cb, r)] |}.

(** The delay Node's [setInterval(callback, delay)] gives the timer it
    makes: a [delay] that is not within [1, 2147483647], NaN included, is
    replaced by 1 (the test is [!(after >= 1 && after <= TIMEOUT_MAX)]). *)
Definition TIMEOUT_MAX : float := 2147483647%float.

Definition timer_delay (after : float) : float :=
  if PrimFloat.leb 1 after && PrimFloat.leb after TIMEOUT_MAX then after else 1%float.

(** [this.monitorTimer = setInterval(..., this.screenshotInterval)] *)
Definition setInterval_monitorTimer (w : World) : World :=
  {| detector := set_monitorTimer (Some (nextTimer w)) (detector w);
     timers := <[nextTimer w := timer_delay (screenshotInterval (detector w))]> (timers w);
     nextTimer := S (nextTimer w);
     suspended := suspended w; console := console w; delivered := delivered w |}.

Definition clearInterval (id : TimerId) (w : World) : World :=
  {| detector := detector w; timers := delete id (timers w); nextTimer := nextTimer w;
     suspended := suspended w; console := console w; delivered := delivered w |}.

(** [startMonitoring(callback)], up to its [await]. The argument is whatever
    value the caller passes; [setScreenshotInterval] passes the current
    content of [this.detectionCallback], which may be [null]. *)
Definition startMonitoring (callback : option Callback) (w : World) : World :=
  if monitoring (detector w) then print WarnAlreadyRunning w
  else
    let w := with_detector (set_monitoring true) w in
    let w := with_detector (set_detectionCallback callback) w in
    park AwaitStartCapture (print LogTakingScreenshot w).

(** [startMonitoring] after [await this.takeScreenshot()]. *)
Definition startMonitoring_resume (c : Capture) (w : World) : World :=
  match c with
  | CaptureFailed _ => w
  | Captured b =>
      let w := with_detector (set_previousScreenshot (Some b)) w in
      let w := print (LogStarted (screenshotInterval (detector w))) w in
      setInterval_monitorTimer w
  end.

(** [stopMonitoring()]: the body has no [await], so it runs to its end when
    the method is called. *)
Definition stopMonitoring (w : World) : World :=
  if negb (monitoring (detector w)) then print WarnNotRunning w
  else
    let w := with_detector (set_monitoring false) w in
    let w :=
      match monitorTimer (detector w) with
      | Some id => with_detector (set_monitorTimer None) (clearInterval id w)
      | None => w
      end in
    let w := with_detector (set_previousScreenshot None) w in
    let w := with_detector (set_detectionCallback None) w in
    print LogStopped w.

(** [setScreenshotInterval(interval)]: neither call is awaited, and the
    argument of [startMonitoring] is read after [stopMonitoring] has run. *)
Definition setScreenshotInterval (interval : float) (w : World) : World :=
  let w := with_detector (set_screenshotInterval interval) w in
  if monitoring (detector w) && bool_decide (is_Some (detectionCallback (detector w)))
  then
    let w := stopMonitoring w in
    startMonitoring (detectionCallback (detector w)) w
  else w.

(** [isMonitoring()] *)
Definition isMonitoring (w : World) : bool := monitoring (detector w).

(** [toISOString().replace(/[:.]/g, '-')] *)
Fixpoint replace_colon_dot (s : string) : string :=
  match s with
  | EmptyString => EmptyString
  | String c s' =>
      String (if (Ascii.eqb c ":" || Ascii.eqb c ".")%char then "-"%char else c)
             (replace_colon_dot s')
  end.

(** [saveScreenshot(screenshot)]: computes the path and logs it (the body has
    no [await]); [now] is what [new Date()] reads. *)
Definition saveScreenshot_path (now : Date) (d : DialogDetector) : string :=
  screenshotDir d +:+ "/" +:+ ("dialog-detected-" +:+ replace_colon_dot now +:+ ".png").

(** [checkForDialog()], up to [await this.takeScreenshot()]. *)
Definition checkForDialog (w : World) : World :=
  park AwaitCheckCapture (print LogTakingScreenshot w).

(** [checkForDialog] once the capture has settled. *)
Definition checkForDialog_captured (c : Capture) (now : Date) (w : World) : World :=
  match c with
  | CaptureFailed e => print (ErrorDuringDetection e) w
  | Captured currentScreenshot =>
      match previousScreenshot (detector w) with
      | Some prev =>
          if detectDialog (detector w) prev currentScreenshot then
            let w := print (LogSizeDiff (sizeDiff prev currentScreenshot)) w in
            let path := saveScreenshot_path now (detector w) in
            park (AwaitCheckSave currentScreenshot path) (print (LogSavedTo path) w)
          else with_detector (set_previousScreenshot (Some currentScreenshot)) w
      | None => with_detector (set_previousScreenshot (Some currentScreenshot)) w
      end
  end.

(** [checkForDialog] once [saveScreenshot] has settled, with a callback (if
    one is set) that calls nothing and returns;
    [checkForDialog_saved_calling] below has the other callbacks. *)
Definition checkForDialog_saved (currentScreenshot : Buffer) (path : string)
    (now : Date) (w : World) : World :=
  let result := {| detected := true; screenshotPath := Some path; timestamp := now |} in
  let w := print (LogDetected path) w in
  let w :=
    match detectionCallback (detector w) with
    | Some cb => deliver cb result w
    | None => w
    end in
  with_detector (set_previousScreenshot (Some currentScreenshot)) w.

(** The callback is a function of the caller. What it does when
    [checkForDialog] calls it, as far as the detector can tell: the public
    methods of the detector it calls before it ends, in order, and the value
    it throws if it ends by throwing. *)
Inductive Method : Type :=
| StartMonitoring (cb : Callback)
| StopMonitoring
| SetScreenshotInterval (interval : float)
| SetDiffThreshold (threshold : float).

Record CallbackRun : Type := {
  calls : list Method;
  thrown : option Thrown
}.

(** A callback that calls nothing and returns. *)
Definition returns_at_once : CallbackRun := {| calls := []; thrown := None |}.

(** A call of a public method, up to its first [await]; a
    [setDiffThreshold] that throws leaves the monitor as it is. *)
Definition invoke (w : World) (m : Method) : World :=
  match m with
  | StartMonitoring cb => startMonitoring (Some cb) w
  | StopMonitoring => stopMonitoring w
  | SetScreenshotInterval i => setScreenshotInterval i w
  | SetDiffThreshold t =>
      match setDiffThreshold t (detector w) with
      | inl _ => w
      | inr d => with_detector (λ _, d) w
      end
  end.

(** [checkForDialog] once [saveScreenshot] has settled, with a callback
    that behaves as [r] says. The call is inside the [try]: when the
    callback throws, the [catch] logs the error and the assignment to
    [this.previousScreenshot] after the call is skipped. *)
Definition checkForDialog_saved_calling (currentScreenshot : Buffer) (path : string)
    (now : Date) (r : CallbackRun) (w : World) : World :=
  let result := {| detected := true; screenshotPath := Some path; timestamp := now |} in
  let w := print (LogDetected path) w in
  match detectionCallback (detector w) with
  | Some cb =>
      let w := foldl invoke (deliver cb result w) (calls r) in
      match thrown r with
      | Some e => print (ErrorDuringDetection e) w
      | None => with_detector (set_previousScreenshot (Some currentScreenshot)) w
      end
  | None => with_detector (set_previousScreenshot (Some currentScreenshot)) w
  end.

(** What can happen to a monitor: calls of its public methods, a timer
    firing, and a parked computation being resumed by the event loop.
    [Resume] of a check cycle parked at [saveScreenshot] is the case of a
    callback that calls nothing and returns; [ResumeCalling] is the same
    resumption with any callback. *)
Inductive Step : Type :=
| CallStartMonitoring (cb : Callback)
| CallStopMonitoring
| CallSetScreenshotInterval (interval : float)
| CallSetDiffThreshold (threshold : float)
| TimerFires (id : TimerId)
| Resume (k : nat) (c : Capture) (now : Date)
| ResumeCalling (k : nat) (r : CallbackRun) (now : Date).

(** [None]: the step is not possible in [w] (no such timer, nothing parked
    at [k]). A [setDiffThreshold] that throws leaves the world as it is. *)
Definition step (w : World) (s : Step) : option World :=
  match s with
  | CallStartMonitoring cb => Some (startMonitoring (Some cb) w)
  | CallStopMonitoring => Some (stopMonitoring w)
  | CallSetScreenshotInterval i => Some (setScreenshotInterval i w)
  | CallSetDiffThreshold t =>
      match setDiffThreshold t (detector w) with
      | inl _ => Some w
      | inr d => Some (with_detector (λ _, d) w)
      end
  | TimerFires id =>
      match timers w !! id with
      | Some _ => Some (checkForDialog w)
      | None => None
      end
  | Resume k c now =>
      match suspended w !! k with
      | Some AwaitStartCapture => Some (startMonitoring_resume c (unpark k w))
      | Some AwaitCheckCapture => Some (checkForDialog_captured c now (unpark k w))
      | Some (AwaitCheckSave cur path) => Some (checkForDialog_saved cur path now (unpark k w))
      | None => None
      end
  | ResumeCalling k r now =>
      match suspended w !! k with
      | Some (AwaitCheckSave cur path) =>
          Some (checkForDialog_saved_calling cur path now r (unpark k w))
      | _ => None
      end
  end.

Fixpoint run (w : World) (steps : list Step) : option World :=
  match steps with
  | [] => Some w
  | s :: rest =>
      match step w s with
      | Some w' => run w' rest
      | None => None
      end
  end.

(** Awaited use: the caller lets everything a call parked run to its end
    before the next call or tick. A parked computation needs at most two
    resumptions (capture, then save). The callback of a check cycle calls
    nothing and returns. *)
Definition settle_parked (c : Capture) (now : Date) (w : World) : World :=
  match step w (Resume 0 c now) with
  | Some w1 =>
      match step w1 (Resume 0 c now) with
      | Some w2 => w2
      | None => w1
      end
  | None => w
  end.

Inductive Op : Type :=
| OpStartMonitoring (cb : Callback) (c : Capture)
| OpStopMonitoring
| OpSetScreenshotInterval (interval : float) (c : Capture)
| OpSetDiffThreshold (threshold : float)
| OpTick (id : TimerId) (c : Capture) (now : Date).

Definition exec (w : World) (o : Op) : option World :=
  match o with
  | OpStartMonitoring cb c =>
      settle_parked c EmptyString <$> step w (CallStartMonitoring cb)
  | OpStopMonitoring => step w CallStopMonitoring
  | OpSetScreenshotInterval i c =>
      settle_parked c EmptyString <$> step w (CallSetScreenshotInterval i)
  | OpSetDiffThreshold t => step w (CallSetDiffThreshold t)
  | OpTick id c now => settle_parked c now <$> step w (TimerFires id)
  end.

Fixpoint exec_all (w : World) (ops : list Op) : option World :=
  match ops with
  | [] => Some w
  | o :: rest =>
      match exec w o with
      | Some w' => exec_all w' rest
      | None => None
      end
  end.

End Dialog.

(** ** ChromeSession.ts and SessionManager.ts *)
Module Session.
Import Js.

(** [ChromeSession]: [sessionId] is [readonly], [tabId] starts as [null]. *)
Record ChromeSession : Type := {
  sessionId : string;
  tabId : option Z
}.

Definition new_ChromeSession (sessionId : string) : ChromeSession :=
  {| sessionId := sessionId; tabId := None |}.

Definition getSessionId (s : ChromeSession) : string := sessionId s.
Definition getTabId (s : ChromeSession) : option Z := tabId s.
Definition setTabId (n : Z) (s : ChromeSession) : ChromeSession :=
  {| sessionId := sessionId s; tabId := Some n |}.

(** Sessions are objects: the manager's [Map] and the tasks hold references
    to them. [heap] is the object store ([new ChromeSession] appends to it),
    [sessions] and [sessionCounter] are the two fields of [SessionManager]. *)
Definition Ref : Type := nat.

Record Store : Type := {
  heap : list ChromeSession;
  sessions : gmap string Ref;
  sessionCounter : nat
}.

Definition new_SessionManager : Store :=
  {| heap := []; sessions := ∅; sessionCounter := 0 |}.

(** [`Session "${sessionId}" already exists`] *)
Definition duplicate_error (sessionId : string) : Thrown :=
  ErrorObject ("Session " +:+ dquote +:+ sessionId +:+ dquote +:+ " already exists").

(** [createSession(name?)]: [name || `session-${this.sessionCounter++}`], so
    a missing or empty name takes the counter; [inl e] is [throw e]. *)
Definition createSession (name : option string) (st : Store) : (Thrown + Ref) * Store :=
  let '(sessionId, counter) :=
    match name with
    | Some (String c s) => (String c s, sessionCounter st)
    | _ => ("session-" +:+ pretty (sessionCounter st), S (sessionCounter st))
    end in
  match sessions st !! sessionId with
  | Some _ =>
      (inl (duplicate_error sessionId),
       {| heap := heap st; sessions := sessions st; sessionCounter := counter |})
  | None =>
      let r := length (heap st) in
      (inr r,
       {| heap := heap st ++ [new_ChromeSession sessionId];
          sessions := <[sessionId := r]> (sessions st);
          sessionCounter := counter |})
  end.

(** [getSession(name)]: [this.sessions.get(name) || null] *)
Definition getSession (name : string) (st : Store) : option Ref :=
  sessions st !! name.

(** [removeSession(name)] *)
Definition removeSession (name : string) (st : Store) : Store :=
  {| heap := heap st; sessions := delete name (sessions st);
     sessionCounter := sessionCounter st |}.

(** [getAllSessions()]: a copy of the map *)
Definition getAllSessions (st : Store) : gmap string Ref := sessions st.

(** [getSessionCount()] *)
Definition getSessionCount (st : Store) : nat := size (sessions st).

(** [clearAll()] *)
Definition clearAll (st : Store) : Store :=
  {| heap := heap st; sessions := ∅; sessionCounter := 0 |}.

(** Writing through a reference: [session.setTabId(n)]. *)
Definition store_setTabId (r : Ref) (n : Z) (st : Store) : Store :=
  match heap st !! r with
  | Some s =>
      {| heap := <[r := setTabId n s]> (heap st); sessions := sessions st;
         sessionCounter := sessionCounter st |}
  | None => st
  end.

(** *** Tasks and [Promise.all]

    A task is a function [(session: ChromeSession) => Promise<T>]. It holds
    the session it is given and nothing of the manager; the model observes
    it once, when its promise settles: what it last wrote with [setTabId]
    (if anything) and how it settled, both as a function of the session it
    found. *)
Inductive Settlement (T : Type) : Type :=
| Fulfils (v : T)
| RejectsWith (e : Thrown).
Arguments Fulfils {T} v.
Arguments RejectsWith {T} e.

Record TaskRun (T : Type) : Type := {
  setsTabId : option Z;
  settlement : Settlement T
}.
Arguments setsTabId {T} _.
Arguments settlement {T} _.

Definition Task (T : Type) : Type := ChromeSession → TaskRun T.

(** The promise of one [async (task, index) => ...] callback of [tasks.map]:
    still waiting for [task(session)], or settled. *)
Inductive Wrapper (T : Type) : Type :=
| Running (task : Task T) (session : Ref)
| Settled (s : Settlement T).
Arguments Running {T} task session.
Arguments Settled {T} s.

Inductive Promise (A : Type) : Type :=
| Pending
| Fulfilled (v : A)
| Rejected (e : Thrown).
Arguments Pending {A}.
Arguments Fulfilled {A} v.
Arguments Rejected {A} e.

(** A [runParallel*] call in flight: the store, the wrapper promises in
    input order, and the first rejection [Promise.all] has seen. *)
Record Fanout (T : Type) : Type := {
  store : Store;
  wrappers : list (Wrapper T);
  rejection : option Thrown
}.
Arguments store {T} _.
Arguments wrappers {T} _.
Arguments rejection {T} _.

Definition reject_first (e : Thrown) (seen : option Thrown) : option Thrown :=
  match seen with
  | Some e0 => Some e0
  | None => Some e
  end.

Definition begin_call {T : Type} (st : Store) : Fanout T :=
  {| store := st; wrappers := []; rejection := None |}.

Definition push_running {T : Type} (task : Task T) (r : Ref) (st : Store) (f : Fanout T)
  : Fanout T :=
  {| store := st; wrappers := wrappers f ++ [Running task r];
     rejection := rejection f |}.

Definition push_rejected {T : Type} (e : Thrown) (st : Store) (f : Fanout T) : Fanout T :=
  {| store := st; wrappers := wrappers f ++ [Settled (RejectsWith e)];
     rejection := reject_first e (rejection f) |}.

(** [`parallel-${index}`] *)
Definition parallel_name (index : nat) : string := "parallel-" +:+ pretty index.

(** The synchronous part of [tasks.map(async (task, index) => ...)] in
    [runParallel]: [createSession] is outside the [try], so when it throws
    the wrapper is rejected and the task is not called. *)
Fixpoint spawn_ephemeral {T : Type} (index : nat) (tasks : list (Task T)) (f : Fanout T)
  : Fanout T :=
  match tasks with
  | [] => f
  | task :: rest =>
      match createSession (Some (parallel_name index)) (store f) with
      | (inl e, st) => spawn_ephemeral (S index) rest (push_rejected e st f)
      | (inr r, st) => spawn_ephemeral (S index) rest (push_running task r st f)
      end
  end.

(** The same in [runParallelWithSessions]: look the name up, create the
    session when there is none. *)
Fixpoint spawn_named {T : Type} (sessionNames : list string) (tasks : list (Task T))
    (f : Fanout T) : Fanout T :=
  match sessionNames, tasks with
  | sessionName :: names, task :: rest =>
      match getSession sessionName (store f) with
      | Some r => spawn_named names rest (push_running task r (store f) f)
      | None =>
          match createSession (Some sessionName) (store f) with
          | (inl e, st) => spawn_named names rest (push_rejected e st f)
          | (inr r, st) => spawn_named names rest (push_running task r st f)
          end
      end
  | _, _ => f
  end.

(** Wrapper [i] settles: the task's promise settles, then (in [runParallel],
    [cleanup = true]) the [finally] block removes the session by its id. *)
Definition settle {T : Type} (cleanup : bool) (f : Fanout T) (i : nat) : Fanout T :=
  match wrappers f !! i with
  | Some (Running task r) =>
      match heap (store f) !! r with
      | Some session =>
          let run := task session in
          let st :=
            match setsTabId run with
            | Some n => store_setTabId r n (store f)
            | None => store f
            end in
          let st := if cleanup then removeSession (getSessionId session) st else st in
          {| store := st;
             wrappers := <[i := Settled (settlement run)]> (wrappers f);
             rejection :=
               match settlement run with
               | RejectsWith e => reject_first e (rejection f)
               | Fulfils _ => rejection f
               end |}
      | None => f
      end
  | _ => f
  end.

(** The values of the wrappers, when every one is fulfilled. *)
Fixpoint all_fulfilled {T : Type} (ws : list (Wrapper T)) : option (list T) :=
  match ws with
  | [] => Some []
  | Settled (Fulfils v) :: rest => cons v <$> all_fulfilled rest
  | _ :: _ => None
  end.

(** The promise a [runParallel*] call returned, as it stands in [f]:
    [await Promise.all(...)] rejects with the first rejection and otherwise
    is fulfilled, in input order, once every wrapper is. *)
Definition returned {T : Type} (f : Fanout T) : Promise (list T) :=
  match rejection f with
  | Some e => Rejected e
  | None =>
      match all_fulfilled (wrappers f) with
      | Some vs => Fulfilled vs
      | None => Pending
      end
  end.

(** [runParallel(tasks)], with [schedule] the order in which the tasks
    settle (indices of wrappers that are not running are skipped). *)
Definition runParallel {T : Type} (tasks : list (Task T)) (schedule : list nat)
    (st : Store) : Fanout T :=
  foldl (settle true) (spawn_ephemeral 0 tasks (begin_call st)) schedule.

(** [`Number of sessions (${a}) must match number of tasks (${b})`] *)
Definition arity_error (a b : nat) : Thrown :=
  ErrorObject ("Number of sessions (" +:+ pretty a +:+ ") must match number of tasks ("
               +:+ pretty b +:+ ")").

(** [runParallelWithSessions(sessionNames, tasks)]: the length check throws
    before anything else is done. *)
Definition runParallelWithSessions {T : Type} (sessionNames : list string)
    (tasks : list (Task T)) (schedule : list nat) (st : Store) : Fanout T :=
  if negb (length sessionNames =? length tasks)
  then {| store := st; wrappers := []; rejection := Some (arity_error (length sessionNames) (length tasks)) |}
  else foldl (settle false) (spawn_named sessionNames tasks (begin_call st)) schedule.

(** [async (session) => session.getTabId()] *)
Definition readTabId : Task (option Z) :=
  λ session, {| setsTabId := None; settlement := Fulfils (getTabId session) |}.

(** Every index of the call occurs in the schedule: all tasks have settled. *)
Definition complete (n : nat) (schedule : list nat) : Prop :=
  ∀ i, i < n → i ∈ schedule.

End Session.

(** ** The ChromeMCPClient class of mcp/tools.ts *)
Module Mcp.
Import Js.

(** One element of [CallToolResult.content], by its [type] tag. *)
Inductive ContentItem : Type :=
| TextContent (text : string)
| ImageContent (data mimeType : string)
| AudioContent (data mimeType : string)
| ResourceContent (uri : string).

Definition item_type (item : ContentItem) : string :=
  match item with
  | TextContent _ => "text"
  | ImageContent _ _ => "image"
  | AudioContent _ _ => "audio"
  | ResourceContent _ => "resource"
  end.

(** [item.text]: [undefined] on the other items, which [join] prints empty. *)
Definition item_text (item : ContentItem) : string :=
  match item with
  | TextContent text => text
  | _ => EmptyString
  end.

Record CallToolResult : Type := {
  content : list ContentItem;
  isError : option bool
}.

(** [data] of a successful call: the joined text, or the raw content. *)
Inductive Data : Type :=
| DataText (text : string)
| DataContent (items : list ContentItem).

Record MCPToolResult : Type := {
  success : bool;
  data : option Data;
  error : option string
}.

(** The SDK [Client] object, as constructed by [ensureConnection]. *)
Record Client : Type := {
  client_name : string;
  client_version : string
}.

Definition new_Client : Client :=
  {| client_name := "chrome-mcp-wrapper"; client_version := "1.0.0" |}.

Record ChromeMCPClient : Type := {
  serverUrl : string;
  client : option Client;
  isConnected : bool
}.

Definition default_serverUrl : string := "http://127.0.0.1:12306/mcp".

(** [constructor(serverUrl = 'http://127.0.0.1:12306/mcp')] *)
Definition constructor (url : option string) : ChromeMCPClient :=
  {| serverUrl := default default_serverUrl url; client := None; isConnected := false |}.

(** What the world answers to a connection attempt ([new URL(...)], the
    transport and [client.connect(transport)], all inside the [try]) and to
    [client.callTool(...)] (a thrown value covers transport errors and the
    two-minute timeout). *)
Inductive Attempt : Type :=
| Connects
| ConnectFails (e : Thrown).

Inductive Remote : Type :=
| RemoteReturns (result : CallToolResult)
| RemoteThrows (e : Thrown).

(** [ensureConnection()]: [Some e] is a rejection with [e]. *)
Definition ensureConnection (attempt : Attempt) (c : ChromeMCPClient)
  : option Thrown * ChromeMCPClient :=
  if isConnected c && bool_decide (is_Some (client c)) then (None, c)
  else
    let c1 := {| serverUrl := serverUrl c; client := Some new_Client;
                 isConnected := isConnected c |} in
    match attempt with
    | Connects =>
        (None, {| serverUrl := serverUrl c1; client := client c1; isConnected := true |})
    | ConnectFails e =>
        (Some e, {| serverUrl := serverUrl c1; client := client c1; isConnected := false |})
    end.

(** [close()]: [closing] is how [client.close()] ends if it is called. *)
Definition close (closing : option Thrown) (c : ChromeMCPClient)
  : option Thrown * ChromeMCPClient :=
  match client c with
  | Some _ =>
      match closing with
      | Some e => (Some e, c)
      | None => (None, {| serverUrl := serverUrl c; client := None; isConnected := false |})
      end
  | None => (None, c)
  end.

Definition newline : string := String "010"%char EmptyString.

(** [content.filter(item => item.type === 'text').map(item => item.text).join('\n')] *)
Definition textContent (items : list ContentItem) : string :=
  String.concat newline
    (List.map item_text (List.filter (λ item, String.eqb (item_type item) "text") items)).

Section CallTool.
(** [JSON.stringify] on a content array. *)
Variable JSON_stringify : list ContentItem → string.

(** The [try] block of [callTool]: [inl e] is an exception leaving it. *)
Definition callTool_try (toolName params : string) (attempt : Attempt) (remote : Remote)
    (c : ChromeMCPClient) : (Thrown + MCPToolResult) * ChromeMCPClient :=
  match ensureConnection attempt c with
  | (Some e, c') => (inl e, c')
  | (None, c') =>
      match client c' with
      | None => (inl (ErrorObject "MCP client is not initialized"), c')
      | Some _ =>
          match remote with
          | RemoteThrows e => (inl e, c')
          | RemoteReturns callResult =>
              if default false (isError callResult) then
                (inr {| success := false; data := None;
                        error := Some ("Tool execution failed: "
                                       +:+ JSON_stringify (content callResult)) |}, c')
              else
                let text := textContent (content callResult) in
                (inr {| success := true;
                        data := Some match text with
                                     | EmptyString => DataContent (content callResult)
                                     | _ => DataText text
                                     end;
                        error := None |}, c')
          end
      end
  end.

(** [callTool(toolName, params)]: the [try] block and its [catch]. *)
Definition callTool (toolName params : string) (attempt : Attempt) (remote : Remote)
    (c : ChromeMCPClient) : (Thrown + MCPToolResult) * ChromeMCPClient :=
  match callTool_try toolName params attempt remote c with
  | (inl e, c') =>
      (inr {| success := false; data := None; error := Some (message_of e) |}, c')
  | (inr r, c') => (inr r, c')
  end.

(** A use of the client: one call, run to its end. *)
Inductive Op : Type :=
| OpEnsureConnection (attempt : Attempt)
| OpCallTool (toolName params : string) (attempt : Attempt) (remote : Remote)
| OpClose (closing : option Thrown).

Definition exec (c : ChromeMCPClient) (o : Op) : ChromeMCPClient :=
  match o with
  | OpEnsureConnection attempt => snd (ensureConnection attempt c)
  | OpCallTool toolName params attempt remote =>
      snd (callTool toolName params attempt remote c)
  | OpClose closing => snd (close closing c)
  end.

Definition exec_all (c : ChromeMCPClient) (ops : list Op) : ChromeMCPClient :=
  foldl exec c ops.

End CallTool.

End Mcp.

(* ===================================================================== *)
(** * Part II: predicates and sample inputs of the statements             *)
(* ===================================================================== *)

(** ** Dialog monitor: predicates and sample inputs *)
Module DialogProps.
Import Js Dialog.

(** A buffer of [n] zero bytes. *)
Definition zeros (n : nat) : Buffer := repeat Byte.x00 n.

(** A monitor started with callback 7 and awaited; the stub's capture. *)
Definition monitoring_with_7 : World :=
  default (new_world None)
    (exec (new_world None) (OpStartMonitoring 7 (Captured takeScreenshot_stub))).

(** [t] is in the interval [0,1]: a number with [0 <= t] and [t <= 1]. NaN
    is not. *)
Definition in_unit_interval (t : float) : bool :=
  PrimFloat.leb 0 t && PrimFloat.leb t 1.

(** [previousScreenshot] and [detectionCallback] are present only while
    [monitoring] is true. *)
Definition present_only_while_monitoring (w : World) : Prop :=
  (is_Some (previousScreenshot (detector w)) → monitoring (detector w) = true)
  ∧ (is_Some (detectionCallback (detector w)) → monitoring (detector w) = true).

(** What awaited use maintains: nothing is parked, an idle monitor holds no
    baseline, callback or timer, and the only live timer is [monitorTimer]. *)
Definition quiet (w : World) : Prop :=
  suspended w = []
  ∧ (monitoring (detector w) = false →
     previousScreenshot (detector w) = None
     ∧ detectionCallback (detector w) = None
     ∧ monitorTimer (detector w) = None)
  ∧ (∀ id, is_Some (timers w !! id) → monitorTimer (detector w) = Some id).

(** A clock reading, as [toISOString()] prints it. *)
Definition a_date : Date := "2026-01-01T00:00:00.000Z".

(** An awaited use of the monitor: start, one tick, a second start, stop. *)
Definition awaited_ops : list Op :=
  [OpStartMonitoring 7 (Captured takeScreenshot_stub);
   OpTick 0 (Captured takeScreenshot_stub) a_date;
   OpStartMonitoring 8 (Captured takeScreenshot_stub);
   OpStopMonitoring].

Definition awaited_world : World :=
  default (new_world None) (exec_all (new_world None) awaited_ops).

(** *** The check cycle *)

(** [/[:.]/]: the characters [saveScreenshot] replaces. *)
Definition colon_or_dot (c : ascii) : bool :=
  (Ascii.eqb c ":" || Ascii.eqb c ".")%char.

(** A step whose capture, if it has one, is what the stub of the source
    produces. *)
Definition stub_capture (s : Step) : Prop :=
  match s with
  | Resume _ c _ => c = Captured takeScreenshot_stub
  | _ => True
  end.

(** No check cycle is parked at [saveScreenshot]. *)
Definition not_saving (s : Suspended) : Prop :=
  match s with
  | AwaitCheckSave _ _ => False
  | _ => True
  end.

(** What holds of a monitor that has only ever seen the stub's captures. *)
Definition silent (w : World) : Prop :=
  delivered w = []
  ∧ (previousScreenshot (detector w) = None
     ∨ previousScreenshot (detector w) = Some takeScreenshot_stub)
  ∧ Forall not_saving (suspended w).

(** The event a check cycle hands to the callback. *)
Definition detection_event (now : Date) (d : DialogDetector) : DialogDetectionResult :=
  {| detected := true;
     screenshotPath := Some (saveScreenshot_path now d);
     timestamp := now |}.

(** One check cycle run to its end: the timer fires, the capture settles
    as [c], and a cycle that then waits at [saveScreenshot] goes on with a
    callback that behaves as [r]. *)
Definition check_cycle (id : TimerId) (c : Capture) (r : CallbackRun) (now : Date)
    (w : World) : option World :=
  match run w [TimerFires id; Resume 0 c now] with
  | Some w1 =>
      match step w1 (ResumeCalling 0 r now) with
      | Some w2 => Some w2
      | None => Some w1
      end
  | None => None
  end.

(** A callback that calls nothing and throws [e]. *)
Definition throws_at_once (e : Thrown) : CallbackRun := {| calls := []; thrown := Some e |}.

End DialogProps.

(** ** Session registry: predicates and sample inputs *)
Module SessionProps.
Import Js Session.

(** Wrapper [i] of the call has settled. *)
Definition is_settled {T : Type} (f : Fanout T) (i : nat) : Prop :=
  ∃ s, wrappers f !! i = Some (Settled s).

(** What a settling task did to its session. *)
Definition task_effect (o : option Z) (r : Ref) (st : Store) : Store :=
  match o with
  | Some n => store_setTabId r n st
  | None => st
  end.

(** The session [runParallel] creates for index [i], and the outcome of a
    task that is run on it. *)
Definition fresh (i : nat) : ChromeSession := new_ChromeSession (parallel_name i).
Definition outcome {T : Type} (i : nat) (task : Task T) : Settlement T :=
  settlement (task (fresh i)).

(** [runParallel] after it has spawned the tasks [done], from a store [st0]
    in which their names were free. *)
Definition spawned {T : Type} (st0 : Store) (done : list (Task T)) (f : Fanout T)
  : Prop :=
  wrappers f = imap (λ i task, Running task (length (heap st0) + i)) done
  ∧ heap (store f) = heap st0 ++ imap (λ i _, fresh i) done
  ∧ sessionCounter (store f) = sessionCounter st0
  ∧ rejection f = None
  ∧ (∀ i, i < length done →
          sessions (store f) !! parallel_name i = Some (length (heap st0) + i))
  ∧ (∀ key, (∀ i, i < length done → key ≠ parallel_name i) →
            sessions (store f) !! key = sessions st0 !! key).

(** The call in flight: every wrapper is either still running on its own
    fresh session, registered under its own name, or settled with the
    outcome of its task and unregistered. *)
Definition in_flight {T : Type} (tasks : list (Task T)) (st0 : Store) (f : Fanout T)
  : Prop :=
  length (wrappers f) = length tasks
  ∧ length (heap (store f)) = length (heap st0) + length tasks
  ∧ sessionCounter (store f) = sessionCounter st0
  ∧ (∀ key, (∀ i, i < length tasks → key ≠ parallel_name i) →
            sessions (store f) !! key = sessions st0 !! key)
  ∧ (∀ i task, tasks !! i = Some task →
       (wrappers f !! i = Some (Running task (length (heap st0) + i))
        ∧ heap (store f) !! (length (heap st0) + i) = Some (fresh i)
        ∧ sessions (store f) !! parallel_name i = Some (length (heap st0) + i))
       ∨ (wrappers f !! i = Some (Settled (outcome i task))
          ∧ sessions (store f) !! parallel_name i = None))
  ∧ (∀ e, rejection f = Some e →
          ∃ i task, tasks !! i = Some task ∧ outcome i task = RejectsWith e)
  ∧ (∀ i e, wrappers f !! i = Some (Settled (RejectsWith e)) → is_Some (rejection f)).

(** Three tasks: two return 7 after [setTabId(5)], the middle one throws. *)
Definition returns_7 : Task Z :=
  λ _, {| setsTabId := Some 5%Z; settlement := Fulfils 7%Z |}.
Definition throws_boom : Task Z :=
  λ _, {| setsTabId := None; settlement := RejectsWith (ErrorObject "boom") |}.



Definition session_A : ChromeSession := {| sessionId := "A"; tabId := Some 111%Z |}.
Definition session_B : ChromeSession := {| sessionId := "B"; tabId := Some 222%Z |}.


(** The call on ["A"; "B"] in flight, from a store [st] in which the two
    names resolve to [a] and [b]: the store is untouched, nothing is
    rejected, and each wrapper is running on its session or has read its
    handle. *)
Definition reading (st : Store) (a b : nat) (f : Fanout (option Z)) : Prop :=
  store f = st
  ∧ rejection f = None
  ∧ ∃ w0 w1, wrappers f = [w0; w1]
      ∧ (w0 = Running readTabId a ∨ w0 = Settled (Fulfils (Some 111%Z)))
      ∧ (w1 = Running readTabId b ∨ w1 = Settled (Fulfils (Some 222%Z))).

(** Sessions "A" and "B" created and given the handles 111 and 222. *)
Definition registry_A_B : Store :=
  let st := snd (createSession (Some "A") new_SessionManager) in
  let st := snd (createSession (Some "B") st) in
  store_setTabId 1 222 (store_setTabId 0 111 st).

(** *** The registry in use *)

(** Every name of the registry refers to a live session object whose id is
    that name. *)
Definition well_formed (st : Store) : Prop :=
  ∀ name r, sessions st !! name = Some r →
            ∃ s, heap st !! r = Some s ∧ sessionId s = name.

(** [`session-${this.sessionCounter}`], the name [createSession()] takes. *)
Definition auto_name (st : Store) : string := "session-" +:+ pretty (sessionCounter st).

(** A use of the registry: one call, run until every task has been given
    the chance to settle that [schedule] gives it. *)
Inductive RegistryOp (T : Type) : Type :=
| DoCreateSession (name : option string)
| DoRemoveSession (name : string)
| DoClearAll
| DoSetTabId (session : Ref) (n : Z)
| DoRunParallel (tasks : list (Task T)) (schedule : list nat)
| DoRunParallelWithSessions (sessionNames : list string) (tasks : list (Task T))
    (schedule : list nat).
Arguments DoCreateSession {T} name.
Arguments DoRemoveSession {T} name.
Arguments DoClearAll {T}.
Arguments DoSetTabId {T} session n.
Arguments DoRunParallel {T} tasks schedule.
Arguments DoRunParallelWithSessions {T} sessionNames tasks schedule.

Definition registry_step {T : Type} (st : Store) (o : RegistryOp T) : Store :=
  match o with
  | DoCreateSession name => (createSession name st).2
  | DoRemoveSession name => removeSession name st
  | DoClearAll => clearAll st
  | DoSetTabId r n => store_setTabId r n st
  | DoRunParallel tasks schedule => store (runParallel tasks schedule st)
  | DoRunParallelWithSessions names tasks schedule =>
      store (runParallelWithSessions names tasks schedule st)
  end.

(** The error of the first task, in the order of settling, that rejects. *)
Fixpoint first_failure {T : Type} (tasks : list (Task T)) (schedule : list nat)
  : option Thrown :=
  match schedule with
  | [] => None
  | i :: rest =>
      match outcome i <$> tasks !! i with
      | Some (RejectsWith e) => Some e
      | _ => first_failure tasks rest
      end
  end.

(** A [runParallel] call in flight, on any store [st0]: what was in the
    registry and in the object store before the call is still there, and
    every running wrapper works on an object made by this call, under a
    name that was free. *)
Definition guests_only {T : Type} (st0 : Store) (f : Fanout T) : Prop :=
  (∀ key r, sessions st0 !! key = Some r → sessions (store f) !! key = Some r)
  ∧ (∀ r, r < length (heap st0) → heap (store f) !! r = heap st0 !! r)
  ∧ sessionCounter (store f) = sessionCounter st0
  ∧ (∀ i task r, wrappers f !! i = Some (Running task r) →
       length (heap st0) ≤ r
       ∧ ∃ s, heap (store f) !! r = Some s ∧ sessions st0 !! sessionId s = None).

(** A task that writes tab id 5 to its session and returns what it read
    before. *)
Definition sets_tab_5 : Task (option Z) :=
  λ session, {| setsTabId := Some 5%Z; settlement := Fulfils (getTabId session) |}.

End SessionProps.

(** ** MCP client: predicates and sample inputs *)
Module McpProps.
Import Js Mcp.

(** A serializer for runs in which the text of the content plays no part. *)
Definition json_placeholder : list ContentItem → string := λ _, "[...]".

Definition refused : Thrown := ErrorObject "connect ECONNREFUSED 127.0.0.1:12306".
Definition timed_out : Thrown := ErrorObject "Request timed out".

(** [ensureConnection] gets through: already connected, or the attempt
    succeeds. *)
Definition connection_available (attempt : Attempt) (c : ChromeMCPClient) : bool :=
  (isConnected c && bool_decide (is_Some (client c)))
  || match attempt with Connects => true | ConnectFails _ => false end.

Definition failure (message : string) : MCPToolResult :=
  {| success := false; data := None; error := Some message |}.

(** A text field that is populated: present, and not the empty string. *)
Definition populated (field : option string) : bool :=
  match field with
  | Some (String _ _) => true
  | _ => false
  end.

(** An [Error] whose message is empty. *)
Definition silent_error : Thrown := ErrorObject EmptyString.

(** *** Tool names and connection state *)

(** [enum ChromeMCPTool]: the member names. *)
Inductive ChromeMCPTool : Type :=
| TABS_CONTEXT | TABS_CREATE | NAVIGATE | COMPUTER | CLICK | FORM_INPUT
| READ_PAGE | GET_PAGE_TEXT | FIND | SCREENSHOT | JAVASCRIPT_TOOL | RESIZE_WINDOW
| READ_CONSOLE_MESSAGES | READ_NETWORK_REQUESTS | SHORTCUTS_LIST | SHORTCUTS_EXECUTE
| GIF_CREATOR | UPLOAD_IMAGE.

(** The value of each member: what [callTool] sends as the tool's name. *)
Definition tool_name (t : ChromeMCPTool) : string :=
  match t with
  | TABS_CONTEXT => "mcp__claude-in-chrome__tabs_context_mcp"
  | TABS_CREATE => "mcp__claude-in-chrome__tabs_create_mcp"
  | NAVIGATE => "mcp__claude-in-chrome__navigate"
  | COMPUTER => "mcp__claude-in-chrome__computer"
  | CLICK => "mcp__claude-in-chrome__computer"
  | FORM_INPUT => "mcp__claude-in-chrome__form_input"
  | READ_PAGE => "mcp__claude-in-chrome__read_page"
  | GET_PAGE_TEXT => "mcp__claude-in-chrome__get_page_text"
  | FIND => "mcp__claude-in-chrome__find"
  | SCREENSHOT => "mcp__claude-in-chrome__computer"
  | JAVASCRIPT_TOOL => "mcp__claude-in-chrome__javascript_tool"
  | RESIZE_WINDOW => "mcp__claude-in-chrome__resize_window"
  | READ_CONSOLE_MESSAGES => "mcp__claude-in-chrome__read_console_messages"
  | READ_NETWORK_REQUESTS => "mcp__claude-in-chrome__read_network_requests"
  | SHORTCUTS_LIST => "mcp__claude-in-chrome__shortcuts_list"
  | SHORTCUTS_EXECUTE => "mcp__claude-in-chrome__shortcuts_execute"
  | GIF_CREATOR => "mcp__claude-in-chrome__gif_creator"
  | UPLOAD_IMAGE => "mcp__claude-in-chrome__upload_image"
  end.

(** The members that stand for the [computer] tool. *)
Definition computer_alias (t : ChromeMCPTool) : bool :=
  match t with
  | COMPUTER | CLICK | SCREENSHOT => true
  | _ => false
  end.

(** The texts [callTool] joins: [item.text] of the items tagged [text]. *)
Definition texts (items : list ContentItem) : list string :=
  List.map item_text (List.filter (λ item, String.eqb (item_type item) "text") items).

(** The client is connected and holds its SDK client. *)
Definition connected (c : ChromeMCPClient) : Prop :=
  isConnected c = true ∧ is_Some (client c).

End McpProps.

(* ===================================================================== *)
(** * Part III: properties                                                *)
(* ===================================================================== *)

(** ** Order of binary64 values *)
Module FloatFacts.
Import Js.

(** Swapping the arguments of a comparison reverses its result. *)
Lemma SFcompare_antisym (x y : spec_float) (c : comparison) :
  SFcompare x y = Some c → SFcompare y x = Some (CompOpp c).
Proof.
  destruct x as [sx| sx | |sx mx ex], y as [sy|sy| |sy my ey]; simpl;
    try discriminate; try (intros [= <-]; reflexivity);
    try (destruct sx; intros [= <-]; reflexivity);
    try (destruct sy; intros [= <-]; reflexivity);
    try (destruct sx, sy; intros [= <-]; reflexivity).
  intros [= <-]. f_equal.
  rewrite (Z.compare_antisym ex ey).
  destruct sx, sy; try reflexivity; destruct (ex ?= ey)%Z; simpl; try reflexivity.
  - f_equal. symmetry. exact (Pos.compare_cont_antisym mx my Eq).
  - symmetry. exact (Pos.compare_cont_antisym mx my Eq).
Qed.

(** Two numbers that compare equal are not strictly ordered. *)
Lemma eqb_not_ltb (x y : float) :
  PrimFloat.eqb x y = true → PrimFloat.ltb y x = false.
Proof.
  rewrite FloatAxioms.eqb_spec, FloatAxioms.ltb_spec. unfold SFeqb, SFltb.
  destruct (SFcompare (Prim2SF x) (Prim2SF y)) as [c|] eqn:E; [|discriminate].
  rewrite (SFcompare_antisym _ _ _ E). destruct c; simpl; congruence.
Qed.

(** [x <= y] excludes [y < x]. *)
Lemma leb_not_ltb (x y : float) :
  PrimFloat.leb x y = true → PrimFloat.ltb y x = false.
Proof.
  rewrite FloatAxioms.leb_spec, FloatAxioms.ltb_spec. unfold SFleb, SFltb.
  destruct (SFcompare (Prim2SF x) (Prim2SF y)) as [c|] eqn:E; [|discriminate].
  rewrite (SFcompare_antisym _ _ _ E). destruct c; simpl; congruence.
Qed.

(** *** Conversion from an integer never gives NaN

    [of_uint63] rounds a non-negative integer: the mantissa stays
    non-negative through the shifts and the rounding, so the result is a
    zero, a finite number or an infinity. *)
Section Rounding.
Local Open Scope Z_scope.

Lemma shr_1_nonneg (mrs : shr_record) : 0 <= shr_m mrs -> 0 <= shr_m (shr_1 mrs).
Proof.
  destruct mrs as [m r s]. simpl.
  destruct m as [|p|p]; [simpl; lia| |lia].
  intros _. destruct p; simpl; lia.
Qed.

Lemma iter_pos_shr_1_nonneg (p : positive) :
  forall mrs, 0 <= shr_m mrs -> 0 <= shr_m (SpecFloat.iter_pos shr_1 p mrs).
Proof.
  induction p as [p IH|p IH|]; intros mrs H; simpl.
  - apply IH, IH. now apply shr_1_nonneg.
  - now apply IH, IH.
  - now apply shr_1_nonneg.
Qed.

Lemma shr_fexp_nonneg (prec emax m e : Z) (l : location) :
  0 <= m -> 0 <= shr_m (fst (shr_fexp prec emax m e l)).
Proof.
  intros H. unfold shr_fexp, shr.
  assert (H0 : 0 <= shr_m (shr_record_of_loc m l)).
  { destruct l as [|[]]; exact H. }
  destruct (fexp prec emax (Zdigits2 m + e) - e); simpl; try exact H0.
  now apply iter_pos_shr_1_nonneg.
Qed.

Lemma round_nearest_even_nonneg (mx : Z) (lx : location) :
  0 <= mx -> 0 <= round_nearest_even mx lx.
Proof.
  intros H. destruct lx as [|[]]; simpl; try lia.
  destruct (Z.even mx); lia.
Qed.

Lemma binary_round_aux_not_nan (prec emax : Z) (sx : bool) (mx ex : Z) (lx : location) :
  0 <= mx -> binary_round_aux prec emax sx mx ex lx <> S754_nan.
Proof.
  intros H. unfold binary_round_aux.
  pose proof (shr_fexp_nonneg prec emax mx ex lx H) as H1.
  destruct (shr_fexp prec emax mx ex lx) as [mrs' e']. simpl in H1.
  pose proof (shr_fexp_nonneg prec emax
                (round_nearest_even (shr_m mrs') (loc_of_shr_record mrs')) e' loc_Exact
                (round_nearest_even_nonneg _ _ H1)) as H2.
  destruct (shr_fexp prec emax _ e' loc_Exact) as [mrs'' e'']. simpl in H2.
  destruct (shr_m mrs'') as [|m|m]; [discriminate| |lia].
  destruct (e'' <=? emax - prec); discriminate.
Qed.

Lemma binary_normalize_not_nan (prec emax m e : Z) (szero : bool) :
  0 <= m -> binary_normalize prec emax m e szero <> S754_nan.
Proof.
  intros H. destruct m as [|p|p]; simpl; [discriminate| |lia].
  unfold binary_round.
  destruct (shl_align p e _) as [mz ez].
  apply binary_round_aux_not_nan. lia.
Qed.

End Rounding.

(** *** Numbers that are not NaN are totally ordered *)

Lemma SFcompare_refl (s : spec_float) : s <> S754_nan -> SFcompare s s = Some Eq.
Proof.
  destruct s as [sg|sg| |sg m e]; intros H; simpl; try reflexivity.
  - now destruct sg.
  - now destruct H.
  - rewrite Z.compare_refl, Pos.compare_cont_refl. now destruct sg.
Qed.

Lemma of_uint63_not_nan (n : int) : PrimFloat.is_nan (of_uint63 n) = false.
Proof.
  unfold PrimFloat.is_nan. rewrite FloatAxioms.eqb_spec, of_uint63_spec.
  unfold SFeqb. rewrite SFcompare_refl; [reflexivity|].
  apply binary_normalize_not_nan. apply Uint63.to_Z_bounded.
Qed.

Lemma SFcompare_total (x y : spec_float) :
  x <> S754_nan -> y <> S754_nan -> exists c, SFcompare x y = Some c.
Proof.
  destruct x as [sx|sx| |sx mx ex], y as [sy|sy| |sy my ey]; intros Hx Hy; simpl;
    try (now destruct Hx); try (now destruct Hy); eexists; reflexivity.
Qed.

Lemma is_nan_false (x : float) : PrimFloat.is_nan x = false -> Prim2SF x <> S754_nan.
Proof.
  unfold PrimFloat.is_nan. rewrite FloatAxioms.eqb_spec. unfold SFeqb.
  intros H E. rewrite E in H. discriminate.
Qed.

Lemma leb_refl (x : float) : PrimFloat.is_nan x = false → PrimFloat.leb x x = true.
Proof.
  intros H. rewrite FloatAxioms.leb_spec. unfold SFleb.
  by rewrite SFcompare_refl by (by apply is_nan_false).
Qed.

Lemma ltb_leb (x y : float) : PrimFloat.ltb x y = true → PrimFloat.leb x y = true.
Proof.
  rewrite FloatAxioms.ltb_spec, FloatAxioms.leb_spec. unfold SFltb, SFleb.
  by destruct (SFcompare (Prim2SF x) (Prim2SF y)) as [[]|].
Qed.

(** Numbers that are not NaN and of which neither is below the other
    compare equal, so each is at most the other. *)
Lemma not_ltb_leb (x y : float) :
  PrimFloat.is_nan x = false → PrimFloat.is_nan y = false →
  PrimFloat.ltb x y = false → PrimFloat.ltb y x = false →
  PrimFloat.leb x y = true ∧ PrimFloat.leb y x = true.
Proof.
  intros Hx Hy. rewrite !FloatAxioms.ltb_spec, !FloatAxioms.leb_spec.
  unfold SFltb, SFleb.
  destruct (SFcompare_total (Prim2SF x) (Prim2SF y)) as [c Hc];
    [by apply is_nan_false..|].
  rewrite Hc, (SFcompare_antisym _ _ _ Hc).
  by destruct c.
Qed.

(** [Math.max] of two numbers that are not NaN is one of them and is not
    below either. *)
Lemma Math_max_larger (a b : float) :
  PrimFloat.is_nan a = false → PrimFloat.is_nan b = false →
  (Math_max a b = a ∨ Math_max a b = b)
  ∧ PrimFloat.leb a (Math_max a b) = true
  ∧ PrimFloat.leb b (Math_max a b) = true.
Proof.
  intros Ha Hb. unfold Math_max. rewrite Ha, Hb. simpl.
  destruct (PrimFloat.ltb a b) eqn:Hab.
  { split; [by right|]. split; [by apply ltb_leb|by apply leb_refl]. }
  destruct (PrimFloat.ltb b a) eqn:Hba.
  { split; [by left|]. split; [by apply leb_refl|by apply ltb_leb]. }
  destruct (not_ltb_leb a b Ha Hb Hab Hba) as [H1 H2].
  destruct (PrimFloat.is_zero a && PrimFloat.get_sign a).
  - split; [by right|]. split; [done|by apply leb_refl].
  - split; [by left|]. split; [by apply leb_refl|done].
Qed.

Lemma Buffer_length_not_nan (b : Buffer) : PrimFloat.is_nan (Buffer_length b) = false.
Proof. apply of_uint63_not_nan. Qed.

(** NaN compares below nothing and nothing compares below NaN. *)
Lemma is_nan_true (x : float) : PrimFloat.is_nan x = true → Prim2SF x = S754_nan.
Proof.
  unfold PrimFloat.is_nan. rewrite FloatAxioms.eqb_spec. unfold SFeqb.
  destruct (Prim2SF x) as [s|s| |s m e] eqn:E; try reflexivity;
    rewrite SFcompare_refl by discriminate; discriminate.
Qed.

Lemma ltb_nan (x y : float) :
  PrimFloat.is_nan x = true ∨ PrimFloat.is_nan y = true → PrimFloat.ltb x y = false.
Proof.
  rewrite FloatAxioms.ltb_spec. unfold SFltb.
  intros [H|H]; apply is_nan_true in H; rewrite H.
  - reflexivity.
  - by destruct (Prim2SF x).
Qed.

Lemma leb_nan (x y : float) :
  PrimFloat.is_nan x = true ∨ PrimFloat.is_nan y = true → PrimFloat.leb x y = false.
Proof.
  rewrite FloatAxioms.leb_spec. unfold SFleb.
  intros [H|H]; apply is_nan_true in H; rewrite H.
  - reflexivity.
  - by destruct (Prim2SF x).
Qed.

(** Two numbers are ordered one way or the other. *)
Lemma not_leb_ltb (x y : float) :
  PrimFloat.is_nan x = false → PrimFloat.is_nan y = false →
  PrimFloat.leb x y = false → PrimFloat.ltb y x = true.
Proof.
  intros Hx Hy. rewrite FloatAxioms.leb_spec, FloatAxioms.ltb_spec.
  unfold SFleb, SFltb.
  destruct (SFcompare_total (Prim2SF x) (Prim2SF y)) as [c Hc];
    [by apply is_nan_false|by apply is_nan_false|].
  rewrite Hc, (SFcompare_antisym _ _ _ Hc). by destruct c.
Qed.

(** *** Sign and absolute value *)

(** Rounding decides the magnitude; the sign it is given is the sign of
    the result. *)
Lemma SFabs_binary_round_aux (prec emax : Z) (sx sy : bool) (m e : Z) (l : location) :
  SFabs (binary_round_aux prec emax sx m e l) = SFabs (binary_round_aux prec emax sy m e l).
Proof.
  unfold binary_round_aux.
  destruct (shr_fexp prec emax m e l) as [mrs' e'].
  destruct (shr_fexp prec emax _ e' loc_Exact) as [mrs'' e''].
  destruct (shr_m mrs''); try reflexivity.
  by destruct (e'' <=? emax - prec)%Z.
Qed.

Lemma SFabs_binary_round_aux_false (prec emax : Z) (m e : Z) (l : location) :
  SFabs (binary_round_aux prec emax false m e l) = binary_round_aux prec emax false m e l.
Proof.
  unfold binary_round_aux.
  destruct (shr_fexp prec emax m e l) as [mrs' e'].
  destruct (shr_fexp prec emax _ e' loc_Exact) as [mrs'' e''].
  destruct (shr_m mrs''); try reflexivity.
  by destruct (e'' <=? emax - prec)%Z.
Qed.

Lemma SFabs_binary_normalize_opp (prec emax : Z) (m e : Z) (szero : bool) :
  SFabs (binary_normalize prec emax (- m) e szero)
  = SFabs (binary_normalize prec emax m e szero).
Proof.
  destruct m as [|p|p]; simpl; [reflexivity| |];
    unfold binary_round;
    destruct (shl_align p e _) as [mz ez]; apply SFabs_binary_round_aux.
Qed.

(** [|x - y| = |y - x|] *)
Lemma SFabs_SFsub_sym (prec emax : Z) (x y : spec_float) :
  SFabs (SFsub prec emax x y) = SFabs (SFsub prec emax y x).
Proof.
  destruct x as [sx|sx| |sx mx ex], y as [sy|sy| |sy my ey]; simpl;
    try reflexivity; try (by destruct sx, sy).
  rewrite (Z.min_comm ey ex), <- SFabs_binary_normalize_opp. do 2 f_equal.
  rewrite Z.opp_sub_distr. apply Z.add_comm.
Qed.

(** [|x - y|] is [x - y] or [y - x]. *)
Lemma SFabs_SFsub_cases (prec emax : Z) (x y : spec_float) :
  SFabs (SFsub prec emax x y) = SFsub prec emax x y
  ∨ SFabs (SFsub prec emax x y) = SFsub prec emax y x.
Proof.
  destruct x as [sx|sx| |sx mx ex], y as [sy|sy| |sy my ey]; simpl;
    try (by left); try (by destruct sx, sy; auto); try (by destruct sx; auto);
    try (by destruct sy; auto).
  set (a := cond_Zopp sx (Z.pos (fst (shl_align mx ex (Z.min ex ey))))).
  set (b := cond_Zopp sy (Z.pos (fst (shl_align my ey (Z.min ex ey))))).
  rewrite (Z.min_comm ey ex). fold a b.
  assert (Hba : (b - a = - (a - b))%Z) by (rewrite Z.opp_sub_distr; apply Z.add_comm).
  rewrite Hba.
  destruct (a - b)%Z as [|p|p]; simpl.
  - by left.
  - left. unfold binary_round. destruct (shl_align p _ _) as [mz ez].
    apply SFabs_binary_round_aux_false.
  - right. unfold binary_round. destruct (shl_align p _ _) as [mz ez].
    rewrite <- (SFabs_binary_round_aux_false prec emax (Z.pos mz) ez loc_Exact).
    apply SFabs_binary_round_aux.
Qed.

Lemma abs_sub_sym (a b : float) :
  PrimFloat.abs (a - b) = PrimFloat.abs (b - a).
Proof.
  apply Prim2SF_inj. rewrite !FloatAxioms.abs_spec, !FloatAxioms.sub_spec.
  apply SFabs_SFsub_sym.
Qed.

Lemma abs_sub_cases (a b : float) :
  PrimFloat.abs (a - b) = (a - b)%float ∨ PrimFloat.abs (a - b) = (b - a)%float.
Proof.
  destruct (SFabs_SFsub_cases prec emax (Prim2SF a) (Prim2SF b)) as [H|H]; [left|right];
    apply Prim2SF_inj; by rewrite FloatAxioms.abs_spec, !FloatAxioms.sub_spec.
Qed.

(** An absolute value is not below zero. *)
Lemma abs_not_negative (x : float) : PrimFloat.ltb (PrimFloat.abs x) 0 = false.
Proof.
  rewrite FloatAxioms.ltb_spec, FloatAxioms.abs_spec.
  replace (Prim2SF 0) with (S754_zero false) by reflexivity.
  by destruct (Prim2SF x).
Qed.

(** *** Lengths *)

(** A length has no sign bit. *)
Lemma of_uint63_sign (n : int) :
  match Prim2SF (of_uint63 n) with
  | S754_zero s | S754_infinity s | S754_finite s _ _ => s = false
  | S754_nan => True
  end.
Proof.
  rewrite of_uint63_spec.
  destruct (Uint63.to_Z_bounded n) as [Hn _].
  destruct (to_Z n) as [|p|p]; simpl; [reflexivity| |by destruct Hn].
  unfold binary_round. destruct (shl_align p _ _) as [mz ez].
  unfold binary_round_aux.
  destruct (shr_fexp prec emax (Z.pos mz) ez loc_Exact) as [mrs' e'].
  destruct (shr_fexp prec emax _ e' loc_Exact) as [mrs'' e''].
  destruct (shr_m mrs''); try reflexivity.
  by destruct (e'' <=? emax - prec)%Z.
Qed.

(** Two lengths that compare equal are the same number. *)
Lemma of_uint63_compare_eq (n m : int) :
  SFcompare (Prim2SF (of_uint63 n)) (Prim2SF (of_uint63 m)) = Some Eq →
  of_uint63 n = of_uint63 m.
Proof.
  intros H. apply Prim2SF_inj.
  pose proof (of_uint63_sign n) as Hn. pose proof (of_uint63_sign m) as Hm.
  destruct (Prim2SF (of_uint63 n)) as [s1|s1| |s1 m1 e1],
           (Prim2SF (of_uint63 m)) as [s2|s2| |s2 m2 e2];
    simpl in H; subst; try discriminate H; try reflexivity.
  destruct (e1 ?= e2)%Z eqn:He; try discriminate H.
  apply Z.compare_eq in He. injection H as H.
  apply Pos.compare_eq in H. by subst.
Qed.

(** [Math.max] of two lengths does not depend on their order. *)
Lemma Math_max_lengths_comm (n m : int) :
  Math_max (of_uint63 n) (of_uint63 m) = Math_max (of_uint63 m) (of_uint63 n).
Proof.
  unfold Math_max. rewrite !of_uint63_not_nan. simpl.
  destruct (PrimFloat.ltb (of_uint63 n) (of_uint63 m)) eqn:Hnm,
           (PrimFloat.ltb (of_uint63 m) (of_uint63 n)) eqn:Hmn; try reflexivity.
  - rewrite (leb_not_ltb _ _ (ltb_leb _ _ Hnm)) in Hmn. discriminate Hmn.
  - assert (He : of_uint63 n = of_uint63 m).
    { apply of_uint63_compare_eq.
      rewrite FloatAxioms.ltb_spec in Hnm, Hmn. unfold SFltb in Hnm, Hmn.
      destruct (SFcompare_total (Prim2SF (of_uint63 n)) (Prim2SF (of_uint63 m)))
        as [c Hc]; [apply is_nan_false, of_uint63_not_nan..|].
      rewrite (SFcompare_antisym _ _ _ Hc) in Hmn. rewrite Hc in Hnm |- *.
      by destruct c. }
    rewrite He. by destruct (PrimFloat.is_zero (of_uint63 m) && _).
Qed.

End FloatFacts.

(** ** DialogDetector *)
Module DialogFacts.
Import Js Dialog DialogProps.

(** 100 bytes against 90: the divergence is 10/100, the default threshold. *)
Example divergence_at_threshold :
  PrimFloat.eqb (sizeDiff (zeros 100) (zeros 90)) default_diffThreshold = true
  ∧ detectDialog (constructor None) (zeros 100) (zeros 90) = false.
Proof. split; vm_compute; reflexivity. Qed.

(** 100 bytes against 89: the divergence is 11/100. *)
Example divergence_above_threshold :
  detectDialog (constructor None) (zeros 100) (zeros 89) = true.
Proof. vm_compute. reflexivity. Qed.

(** Two empty captures (what the stub produces): 0/0 is NaN, no detection. *)
Example divergence_of_empty_captures :
  PrimFloat.is_nan (sizeDiff takeScreenshot_stub takeScreenshot_stub) = true
  ∧ detectDialog (constructor None) takeScreenshot_stub takeScreenshot_stub = false.
Proof. split; vm_compute; reflexivity. Qed.

(** The score is the same whether the capture grew or shrank. *)
Lemma sizeDiff_sym (prev current : Buffer) : sizeDiff prev current = sizeDiff current prev.
Proof.
  unfold sizeDiff, Math_abs, Buffer_length.
  by rewrite FloatFacts.abs_sub_sym, FloatFacts.Math_max_lengths_comm.
Qed.

(** C6. The divergence score of two captures is the absolute difference of
    their byte lengths (the one of [prevSize - currentSize] and
    [currentSize - prevSize] that is not negative) divided by the larger of
    the two lengths (one of the two, and neither exceeds it); it is the same
    whether the capture grew or shrank. [detectDialog] compares the score
    strictly with [diffThreshold]: a score equal to the threshold, or below
    it, does not detect, and a score that is not at or below the threshold
    does. *)
Theorem detectDialog_strict (d : DialogDetector) (prev current : Buffer) :
  let prevSize := Buffer_length prev in
  let currentSize := Buffer_length current in
  let difference := Math_abs (PrimFloat.sub prevSize currentSize) in
  let larger := Math_max prevSize currentSize in
  sizeDiff prev current = PrimFloat.div difference larger
  ∧ (difference = PrimFloat.sub prevSize currentSize
     ∨ difference = PrimFloat.sub currentSize prevSize)
  ∧ PrimFloat.ltb difference 0 = false
  ∧ (larger = prevSize ∨ larger = currentSize)
  ∧ PrimFloat.leb prevSize larger = true
  ∧ PrimFloat.leb currentSize larger = true
  ∧ sizeDiff current prev = sizeDiff prev current
  ∧ detectDialog d current prev = detectDialog d prev current
  ∧ (PrimFloat.eqb (sizeDiff prev current) (diffThreshold d) = true →
     detectDialog d prev current = false)
  ∧ (PrimFloat.leb (sizeDiff prev current) (diffThreshold d) = true →
     detectDialog d prev current = false)
  ∧ (PrimFloat.is_nan (sizeDiff prev current) = false →
     PrimFloat.is_nan (diffThreshold d) = false →
     PrimFloat.leb (sizeDiff prev current) (diffThreshold d) = false →
     detectDialog d prev current = true).
Proof.
  intros prevSize currentSize difference larger.
  split; [reflexivity|].
  split; [apply FloatFacts.abs_sub_cases|].
  split; [apply FloatFacts.abs_not_negative|].
  destruct (FloatFacts.Math_max_larger prevSize currentSize
              (FloatFacts.Buffer_length_not_nan prev)
              (FloatFacts.Buffer_length_not_nan current)) as (Hone & Hprev & Hcur).
  split; [exact Hone|]. split; [exact Hprev|]. split; [exact Hcur|].
  split; [apply sizeDiff_sym|].
  split; [unfold detectDialog; by rewrite sizeDiff_sym|].
  split; [|split].
  - intros Heq. unfold detectDialog. now apply FloatFacts.eqb_not_ltb.
  - intros Hle. unfold detectDialog. now apply FloatFacts.leb_not_ltb.
  - intros Hs Ht Hle. unfold detectDialog. now apply FloatFacts.not_leb_ltb.
Qed.

Lemma detectDialog_strict_witness :
  detectDialog (constructor None) (zeros 100) (zeros 90) = false
  ∧ detectDialog (constructor None) (zeros 90) (zeros 100) = false
  ∧ detectDialog (constructor None) (zeros 100) (zeros 89) = true
  ∧ detectDialog (constructor None) (zeros 89) (zeros 100) = true
  ∧ detectDialog (constructor None) takeScreenshot_stub (zeros 5) = true.
Proof.
  destruct (detectDialog_strict (constructor None) (zeros 100) (zeros 90))
    as (_ & _ & _ & _ & _ & _ & _ & Hsym90 & Heq & _).
  destruct (detectDialog_strict (constructor None) (zeros 100) (zeros 89))
    as (_ & _ & _ & _ & _ & _ & _ & Hsym89 & _ & _ & Habove).
  destruct (detectDialog_strict (constructor None) takeScreenshot_stub (zeros 5))
    as (_ & _ & _ & _ & _ & _ & _ & _ & _ & _ & Hgrown).
  assert (H90 : detectDialog (constructor None) (zeros 100) (zeros 90) = false)
    by (apply Heq; vm_compute; reflexivity).
  assert (H89 : detectDialog (constructor None) (zeros 100) (zeros 89) = true)
    by (apply Habove; vm_compute; reflexivity).
  split; [exact H90|]. split; [by rewrite Hsym90|].
  split; [exact H89|]. split; [by rewrite Hsym89|].
  apply Hgrown; vm_compute; reflexivity.
Defined.

(** C8. For every number [t] outside [0,1], [setDiffThreshold(t)] throws
    and leaves the monitor as it was; for every [t] in [0,1] it stores [t]
    and changes nothing else: monitoring, timer, baseline, callback and
    interval stay, and no computation is parked. NaN is outside [0,1] as
    well, but the guard [threshold < 0 || threshold > 1] is false of it:
    [setDiffThreshold(NaN)] does not throw and stores NaN. *)
Theorem setDiffThreshold_validates (t : float) (w : World) :
  (PrimFloat.is_nan t = false → in_unit_interval t = false →
     setDiffThreshold t (detector w) = inl threshold_error
     ∧ step w (CallSetDiffThreshold t) = Some w)
  ∧ (in_unit_interval t = true →
     setDiffThreshold t (detector w) = inr (set_diffThreshold t (detector w))
     ∧ ∃ w', step w (CallSetDiffThreshold t) = Some w'
        ∧ diffThreshold (detector w') = t
        ∧ screenshotInterval (detector w') = screenshotInterval (detector w)
        ∧ monitoring (detector w') = monitoring (detector w)
        ∧ monitorTimer (detector w') = monitorTimer (detector w)
        ∧ previousScreenshot (detector w') = previousScreenshot (detector w)
        ∧ detectionCallback (detector w') = detectionCallback (detector w)
        ∧ timers w' = timers w
        ∧ suspended w' = suspended w)
  ∧ (PrimFloat.is_nan t = true →
     in_unit_interval t = false
     ∧ setDiffThreshold t (detector w) = inr (set_diffThreshold t (detector w))
     ∧ ∃ w', step w (CallSetDiffThreshold t) = Some w'
        ∧ PrimFloat.is_nan (diffThreshold (detector w')) = true).
Proof.
  split; [|split].
  - intros Hnan Hout.
    assert (Hr : out_of_range t = true).
    { unfold out_of_range. unfold in_unit_interval in Hout.
      assert (H0 : PrimFloat.is_nan 0 = false) by reflexivity.
      assert (H1 : PrimFloat.is_nan 1 = false) by reflexivity.
      apply andb_false_iff in Hout as [Hout|Hout].
      - by rewrite (FloatFacts.not_leb_ltb _ _ H0 Hnan Hout).
      - rewrite (FloatFacts.not_leb_ltb _ _ Hnan H1 Hout). apply orb_true_r. }
    unfold step, setDiffThreshold. rewrite Hr. split; reflexivity.
  - intros Hin. apply andb_true_iff in Hin as [H0 H1].
    assert (Hr : out_of_range t = false).
    { unfold out_of_range.
      rewrite (FloatFacts.leb_not_ltb _ _ H0), (FloatFacts.leb_not_ltb _ _ H1).
      reflexivity. }
    unfold step, setDiffThreshold. rewrite Hr. split; [reflexivity|].
    eexists. split; [reflexivity|]. simpl. repeat split; reflexivity.
  - intros Hnan.
    assert (Hr : out_of_range t = false).
    { unfold out_of_range. by rewrite !FloatFacts.ltb_nan by auto. }
    split.
    { unfold in_unit_interval. by rewrite (FloatFacts.leb_nan 0 t) by auto. }
    unfold step, setDiffThreshold. rewrite Hr. split; [reflexivity|].
    eexists. split; [reflexivity|]. exact Hnan.
Qed.

Lemma setDiffThreshold_validates_witness :
  setDiffThreshold 1.5%float (constructor None) = inl threshold_error
  ∧ setDiffThreshold (-0.25)%float (constructor None) = inl threshold_error
  ∧ setDiffThreshold 0.5%float (constructor None)
    = inr (set_diffThreshold 0.5%float (constructor None))
  ∧ setDiffThreshold PrimFloat.nan (constructor None)
    = inr (set_diffThreshold PrimFloat.nan (constructor None)).
Proof.
  split; [|split; [|split]].
  - destruct (setDiffThreshold_validates 1.5%float (new_world None)) as (Hout & _ & _).
    exact (proj1 (Hout eq_refl eq_refl)).
  - destruct (setDiffThreshold_validates (-0.25)%float (new_world None)) as (Hout & _ & _).
    exact (proj1 (Hout eq_refl eq_refl)).
  - destruct (setDiffThreshold_validates 0.5%float (new_world None)) as (_ & Hin & _).
    exact (proj1 (Hin eq_refl)).
  - destruct (setDiffThreshold_validates PrimFloat.nan (new_world None)) as (_ & _ & Hnan).
    exact (proj1 (proj2 (Hnan eq_refl))).
Defined.


(** *** setScreenshotInterval *)

Example monitoring_with_7_state :
  monitoring (detector monitoring_with_7) = true
  ∧ detectionCallback (detector monitoring_with_7) = Some 7
  ∧ suspended monitoring_with_7 = [].
Proof. repeat split; vm_compute; reflexivity. Qed.

(** The resumed [startMonitoring] writes neither [monitoring] nor the
    callback. *)
Lemma startMonitoring_resume_keeps (c : Capture) (w : World) :
  monitoring (detector (startMonitoring_resume c w)) = monitoring (detector w)
  ∧ detectionCallback (detector (startMonitoring_resume c w))
    = detectionCallback (detector w).
Proof. destruct c; split; reflexivity. Qed.

(** The call itself: stop, then start with the callback read after the
    stop. *)
Lemma setScreenshotInterval_restart (w : World) (cb : Callback) (i : float) :
  monitoring (detector w) = true →
  detectionCallback (detector w) = Some cb →
  screenshotInterval (detector (setScreenshotInterval i w)) = i
  ∧ monitoring (detector (setScreenshotInterval i w)) = true
  ∧ detectionCallback (detector (setScreenshotInterval i w)) = None
  ∧ suspended (setScreenshotInterval i w) = suspended w ++ [AwaitStartCapture].
Proof.
  intros Hm Hcb.
  destruct w as [[iv th dir m tm prev dcb] tms nt susp cons del].
  simpl in Hm, Hcb. subst m dcb.
  destruct tm as [id|]; cbn; repeat split; reflexivity.
Qed.

(** C1, as the code behaves. On a monitor that is monitoring with callback
    [cb], [setScreenshotInterval(i)] stores the interval and restarts, but
    [stopMonitoring] has cleared the callback before [startMonitoring] reads
    it: the monitor is monitoring again with no callback, when the call
    returns and also after the restarted [startMonitoring] has finished. *)
Theorem setScreenshotInterval_loses_callback
    (w : World) (cb : Callback) (i : float) (c : Capture) :
  monitoring (detector w) = true →
  detectionCallback (detector w) = Some cb →
  let w1 := setScreenshotInterval i w in
  let w2 := startMonitoring_resume c (unpark (length (suspended w)) w1) in
  screenshotInterval (detector w1) = i
  ∧ monitoring (detector w1) = true
  ∧ detectionCallback (detector w1) = None
  ∧ suspended w1 = suspended w ++ [AwaitStartCapture]
  ∧ step w1 (Resume (length (suspended w)) c EmptyString) = Some w2
  ∧ monitoring (detector w2) = true
  ∧ detectionCallback (detector w2) = None.
Proof.
  intros Hm Hcb w1 w2.
  destruct (setScreenshotInterval_restart w cb i Hm Hcb) as (Hi & Hmon & Hnone & Hs).
  fold w1 in Hi, Hmon, Hnone, Hs.
  destruct (startMonitoring_resume_keeps c (unpark (length (suspended w)) w1))
    as [Hk1 Hk2].
  fold w2 in Hk1, Hk2.
  repeat split; try assumption.
  - unfold step. rewrite Hs, lookup_app_r by lia. rewrite Nat.sub_diag. reflexivity.
  - rewrite Hk1. exact Hmon.
  - rewrite Hk2. exact Hnone.
Qed.

Lemma setScreenshotInterval_loses_callback_witness :
  monitoring (detector (setScreenshotInterval 1000 monitoring_with_7)) = true
  ∧ detectionCallback (detector (setScreenshotInterval 1000 monitoring_with_7)) = None.
Proof.
  pose proof (setScreenshotInterval_loses_callback monitoring_with_7 7 1000%float
                (Captured takeScreenshot_stub) eq_refl eq_refl) as H.
  split; apply H.
Defined.

(** *** The lifecycle invariant *)

(** A new monitor is quiet, quiet monitors satisfy the invariant, and every
    awaited operation keeps a monitor quiet. *)
Lemma quiet_new_world (options : option DialogDetectionOptions) :
  quiet (new_world options).
Proof.
  repeat split; simpl; try reflexivity.
  intros id [x Hx]. rewrite lookup_empty in Hx. discriminate.
Qed.

Lemma quiet_present (w : World) : quiet w → present_only_while_monitoring w.
Proof.
  intros (_ & Hidle & _). unfold present_only_while_monitoring.
  destruct (monitoring (detector w)); [split; reflexivity|].
  destruct (Hidle eq_refl) as (-> & -> & _).
  split; intros [x Hx]; discriminate.
Qed.

Local Opaque detectDialog sizeDiff saveScreenshot_path.

Ltac monitor_eval H :=
  cbv beta iota delta
    [exec step settle_parked startMonitoring startMonitoring_resume stopMonitoring
     setScreenshotInterval checkForDialog checkForDialog_captured checkForDialog_saved
     with_detector print park unpark deliver setInterval_monitorTimer clearInterval
     set_screenshotInterval set_diffThreshold set_monitoring set_monitorTimer
     set_previousScreenshot set_detectionCallback setDiffThreshold
     detector timers nextTimer suspended console delivered
     screenshotInterval diffThreshold screenshotDir monitoring monitorTimer
     previousScreenshot detectionCallback negb andb] in H;
  simpl in H.

Ltac quiet_timers' Htm :=
  let id := fresh "id" in
  let x := fresh "x" in
  let H := fresh "H" in
  intros id [x H];
  repeat (first
    [ apply lookup_insert_Some in H; destruct H as [[<- _]|[_ H]]; [reflexivity|]
    | apply lookup_delete_Some in H; destruct H as [? H] ]);
  specialize (Htm id (ex_intro _ x H)); congruence.

Ltac quiet_idle Hidle :=
  simpl;
  first [ discriminate
        | intros _; repeat split; reflexivity
        | exact Hidle ].

Ltac quiet_done Hidle Htm :=
  split; [reflexivity|]; split; [quiet_idle Hidle | simpl; quiet_timers' Htm].

Lemma exec_quiet (w w' : World) (o : Op) :
  quiet w → exec w o = Some w' → quiet w'.
Proof.
  intros (Hs & Hidle & Htm) He.
  destruct w as [[iv th dir m tm prev dcb] tms nt susp cons del].
  simpl in Hs, Hidle, Htm. subst susp.
  destruct o as [cb c| |i c|t|id c now].
  - (* startMonitoring, awaited *)
    destruct m; monitor_eval He.
    + injection He as <-. quiet_done Hidle Htm.
    + destruct (Hidle eq_refl) as (-> & -> & ->).
      destruct c as [b|e]; monitor_eval He; injection He as <-; quiet_done Hidle Htm.
  - (* stopMonitoring *)
    destruct m; monitor_eval He.
    + destruct tm as [id|]; monitor_eval He; injection He as <-; quiet_done Hidle Htm.
    + injection He as <-. quiet_done Hidle Htm.
  - (* setScreenshotInterval, then the restarted startMonitoring *)
    destruct m; monitor_eval He.
    + destruct dcb as [cb|]; monitor_eval He.
      * destruct tm as [id|], c as [b|e]; monitor_eval He; injection He as <-;
          quiet_done Hidle Htm.
      * injection He as <-. quiet_done Hidle Htm.
    + injection He as <-. quiet_done Hidle Htm.
  - (* setDiffThreshold *)
    monitor_eval He.
    destruct (out_of_range t); injection He as <-; quiet_done Hidle Htm.
  - (* a tick and its check cycle *)
    monitor_eval He. destruct (tms !! id) as [delay|] eqn:Hid; [|discriminate].
    assert (Htimer : tm = Some id) by (apply Htm; eauto).
    assert (Hmon : m = true).
    { destruct m; [reflexivity|]. destruct (Hidle eq_refl) as (_ & _ & Hnone).
      congruence. }
    subst m tm. monitor_eval He.
    destruct c as [b|e]; monitor_eval He.
    + destruct prev as [p|]; monitor_eval He.
      * destruct (detectDialog _ p b); monitor_eval He.
        -- destruct dcb as [cb|]; injection He as <-; quiet_done Hidle Htm.
        -- injection He as <-. quiet_done Hidle Htm.
      * injection He as <-. quiet_done Hidle Htm.
    + injection He as <-. quiet_done Hidle Htm.
Qed.

Lemma exec_all_quiet (ops : list Op) (w w' : World) :
  quiet w → exec_all w ops = Some w' → quiet w'.
Proof.
  revert w. induction ops as [|o ops IH]; intros w Hq He; simpl in He.
  - now injection He as <-.
  - destruct (exec w o) as [w1|] eqn:E1; [|discriminate].
    eapply IH; [|exact He]. eapply exec_quiet; eauto.
Qed.

(** C7 does not hold of every reachable state. [startMonitoring(cb)] called
    without [await] (as in the README) and followed by [stopMonitoring()]:
    the start is parked at its capture when the stop runs, and when it
    resumes it stores its baseline and sets a timer without looking at
    [monitoring]. The monitor is idle with a baseline present, and a later
    [stopMonitoring] only warns that monitoring is not running. *)
Lemma baseline_present_while_idle :
  ∃ w, run (new_world None)
         [CallStartMonitoring 7;
          CallStopMonitoring;
          Resume 0 (Captured takeScreenshot_stub) a_date] = Some w
       ∧ monitoring (detector w) = false
       ∧ previousScreenshot (detector w) = Some takeScreenshot_stub
       ∧ monitorTimer (detector w) = Some 0
       ∧ timers w !! 0 = Some default_screenshotInterval
       ∧ step w CallStopMonitoring = Some (print WarnNotRunning w)
       ∧ ¬ present_only_while_monitoring w.
Proof.
  eexists. split; [vm_compute; reflexivity|].
  do 5 (split; [reflexivity|]).
  intros [Hprev _]. simpl in Hprev.
  specialize (Hprev (ex_intro _ _ eq_refl)). discriminate.
Qed.

(** The same state is reached with every promise awaited:
    [await startMonitoring(cb); setScreenshotInterval(1000);
     await stopMonitoring()]. The restart inside [setScreenshotInterval] is
    still parked when [stopMonitoring] runs. *)
Example stop_after_setScreenshotInterval :
  ∃ w, run (new_world None)
         [CallStartMonitoring 7; Resume 0 (Captured takeScreenshot_stub) a_date;
          CallSetScreenshotInterval 1000;
          CallStopMonitoring;
          Resume 0 (Captured takeScreenshot_stub) a_date] = Some w
       ∧ monitoring (detector w) = false
       ∧ previousScreenshot (detector w) = Some takeScreenshot_stub
       ∧ monitorTimer (detector w) = Some 1.
Proof.
  eexists. split; [vm_compute; reflexivity|]. repeat split; reflexivity.
Qed.

(** With a capture that takes time (the stub's promise is already resolved,
    a capture backed by I/O is not), a stop can also land while a check
    cycle waits for its capture; [stopMonitoring] cancels the timer, not the
    cycle, which then stores the capture as the new baseline. *)
Example stop_during_check_cycle :
  ∃ w, run (new_world None)
         [CallStartMonitoring 7; Resume 0 (Captured takeScreenshot_stub) a_date;
          TimerFires 0;
          CallStopMonitoring;
          Resume 0 (Captured (zeros 100)) a_date] = Some w
       ∧ monitoring (detector w) = false
       ∧ previousScreenshot (detector w) = Some (zeros 100).
Proof.
  eexists. split; [vm_compute; reflexivity|]. repeat split; reflexivity.
Qed.

(** C7, amended. In every state reached by awaited use (each call, the
    restart that [setScreenshotInterval] leaves pending included, and each
    check cycle runs to its end before the next begins) the baseline and the
    callback are present only while monitoring is true. In any state,
    [startMonitoring] on a monitoring detector only prints the warning, and
    [stopMonitoring] on a monitoring detector clears baseline and callback
    and sets monitoring to false. *)
Theorem awaited_monitor_lifecycle
    (options : option DialogDetectionOptions) (ops : list Op) (w : World) :
  exec_all (new_world options) ops = Some w →
  present_only_while_monitoring w
  ∧ (∀ (v : World) (cb : Callback),
       monitoring (detector v) = true →
       startMonitoring (Some cb) v = print WarnAlreadyRunning v
       ∧ detector (startMonitoring (Some cb) v) = detector v)
  ∧ (∀ v : World,
       monitoring (detector v) = true →
       monitoring (detector (stopMonitoring v)) = false
       ∧ previousScreenshot (detector (stopMonitoring v)) = None
       ∧ detectionCallback (detector (stopMonitoring v)) = None
       ∧ monitorTimer (detector (stopMonitoring v)) = None).
Proof.
  intros He. split; [|split].
  - apply quiet_present. eapply exec_all_quiet; [apply quiet_new_world | exact He].
  - intros v cb Hm. unfold startMonitoring. rewrite Hm. split; reflexivity.
  - intros v Hm.
    destruct v as [[iv th dir m tm prev dcb] tms nt susp cons del].
    simpl in Hm. subst m. destruct tm; repeat split; reflexivity.
Qed.

Lemma awaited_monitor_lifecycle_witness :
  exec_all (new_world None) awaited_ops = Some awaited_world
  ∧ present_only_while_monitoring awaited_world.
Proof.
  assert (He : exec_all (new_world None) awaited_ops = Some awaited_world)
    by (vm_compute; reflexivity).
  split; [exact He|].
  exact (proj1 (awaited_monitor_lifecycle None awaited_ops awaited_world He)).
Defined.

(** The monitor the examples start from is in awaited use. *)
Lemma quiet_monitoring_with_7 : quiet monitoring_with_7.
Proof.
  apply (exec_quiet (new_world None) monitoring_with_7
           (OpStartMonitoring 7 (Captured takeScreenshot_stub)));
    [apply quiet_new_world|vm_compute; reflexivity].
Defined.

(** *** One check cycle, awaited *)

(** A live timer of a quiet monitor is its [monitorTimer], and the monitor
    is monitoring. *)
Lemma quiet_live_timer (w : World) (id : TimerId) (delay : float) :
  quiet w → timers w !! id = Some delay →
  monitorTimer (detector w) = Some id ∧ monitoring (detector w) = true.
Proof.
  intros (_ & Hidle & Htm) Hid.
  assert (Ht : monitorTimer (detector w) = Some id) by (apply Htm; eauto).
  split; [exact Ht|].
  destruct (monitoring (detector w)); [done|].
  destruct (Hidle eq_refl) as (_ & _ & Hnone). congruence.
Qed.

(** With a callback that calls nothing and returns, the resumption of
    [ResumeCalling] is that of [Resume]. *)
Lemma saved_calling_returns_at_once
    (cur : Buffer) (path : string) (now : Date) (w : World) :
  checkForDialog_saved_calling cur path now returns_at_once w
  = checkForDialog_saved cur path now w.
Proof.
  unfold checkForDialog_saved_calling, checkForDialog_saved.
  cbn [calls thrown returns_at_once foldl].
  by destruct (detectionCallback (detector (print (LogDetected path) w))).
Qed.

(** X12. A check cycle on a monitor in awaited use, with a callback that
    does not call the detector. The capture it took becomes the new baseline
    when no callback is called (no baseline yet, no dialog detected, or no
    callback set) and when the callback returns. When the callback throws,
    the [catch] logs the error and the old baseline stays, as it does when
    the capture itself fails. In every case the timer, the callback, the
    configuration and the monitoring flag are untouched and nothing is left
    parked: the loop goes on. *)
Theorem check_cycle_advances_baseline
    (w : World) (id : TimerId) (delay : float) (c : Capture) (r : CallbackRun)
    (now : Date) :
  quiet w →
  timers w !! id = Some delay →
  calls r = [] →
  ∃ w', check_cycle id c r now w = Some w'
        ∧ timers w' = timers w
        ∧ suspended w' = []
        ∧ monitoring (detector w') = true
        ∧ monitorTimer (detector w') = monitorTimer (detector w)
        ∧ detectionCallback (detector w') = detectionCallback (detector w)
        ∧ diffThreshold (detector w') = diffThreshold (detector w)
        ∧ screenshotInterval (detector w') = screenshotInterval (detector w)
        ∧ match c with
          | Captured b =>
              match previousScreenshot (detector w), detectionCallback (detector w),
                    thrown r with
              | Some prev, Some cb, Some e =>
                  if detectDialog (detector w) prev b
                  then previousScreenshot (detector w') = Some prev
                       ∧ delivered w' = delivered w ++ [(cb, detection_event now (detector w))]
                       ∧ last (console w') = Some (ErrorDuringDetection e)
                  else previousScreenshot (detector w') = Some b
              | _, _, _ => previousScreenshot (detector w') = Some b
              end
          | CaptureFailed e =>
              previousScreenshot (detector w') = previousScreenshot (detector w)
              ∧ delivered w' = delivered w
              ∧ console w' = console w ++ [LogTakingScreenshot; ErrorDuringDetection e]
          end.
Proof.
  intros Hq Hid Hcalls. destruct (quiet_live_timer w id delay Hq Hid) as [Ht Hm].
  destruct Hq as (Hs & _ & _).
  destruct w as [[iv th dir m tm prev dcb] tms nt susp cons del].
  destruct r as [cs thr].
  simpl in *. subst susp m tm cs.
  unfold check_cycle, run, step. cbn [timers]. rewrite Hid.
  destruct c as [b|e].
  - destruct prev as [p|].
    + destruct (detectDialog
                  {| screenshotInterval := iv; diffThreshold := th; screenshotDir := dir;
                     monitoring := true; monitorTimer := Some id;
                     previousScreenshot := Some p; detectionCallback := dcb |} p b)
        eqn:Hdet.
      * destruct dcb as [cb|], thr as [e|].
        -- eexists. split; [cbn; rewrite Hdet; cbn; reflexivity|].
           cbn. repeat split. by rewrite last_snoc.
        -- eexists. split; [cbn; rewrite Hdet; cbn; reflexivity|]. repeat split.
        -- eexists. split; [cbn; rewrite Hdet; cbn; reflexivity|]. repeat split.
        -- eexists. split; [cbn; rewrite Hdet; cbn; reflexivity|]. repeat split.
      * eexists. split; [cbn; rewrite Hdet; cbn; reflexivity|].
        destruct dcb as [cb|], thr as [e|]; repeat split.
    + eexists. split; [cbn; reflexivity|].
      destruct dcb as [cb|], thr as [e|]; repeat split.
  - eexists. split; [cbn; reflexivity|]. simpl.
    repeat split. by rewrite <- app_assoc.
Qed.

Lemma check_cycle_advances_baseline_witness :
  (∃ w', check_cycle 0 (Captured (zeros 100)) returns_at_once a_date monitoring_with_7
         = Some w'
         ∧ previousScreenshot (detector w') = Some (zeros 100))
  ∧ (∃ w', check_cycle 0 (Captured (zeros 100)) (throws_at_once (ErrorObject "boom"))
             a_date monitoring_with_7 = Some w'
           ∧ previousScreenshot (detector w') = Some takeScreenshot_stub).
Proof.
  split.
  - destruct (check_cycle_advances_baseline monitoring_with_7 0 5000%float
                (Captured (zeros 100)) returns_at_once a_date
                quiet_monitoring_with_7 eq_refl eq_refl)
      as (w' & He & _ & _ & _ & _ & _ & _ & _ & Hp).
    exists w'. split; [exact He|exact Hp].
  - destruct (check_cycle_advances_baseline monitoring_with_7 0 5000%float
                (Captured (zeros 100)) (throws_at_once (ErrorObject "boom")) a_date
                quiet_monitoring_with_7 eq_refl eq_refl)
      as (w' & He & _ & _ & _ & _ & _ & _ & _ & Hp).
    exists w'. split; [exact He|]. exact (proj1 Hp).
Defined.

(** X13. In such a check cycle the callback is called exactly when there
    is a baseline, [detectDialog] holds of the baseline and the new capture,
    and a callback is set; it is called once, with [detected] true, the path
    [saveScreenshot] computed and the time of the call. *)
Theorem check_cycle_delivers
    (w : World) (id : TimerId) (delay : float) (b : Buffer) (now : Date) :
  quiet w →
  timers w !! id = Some delay →
  ∃ w', exec w (OpTick id (Captured b) now) = Some w'
        ∧ delivered w'
          = delivered w
            ++ match previousScreenshot (detector w), detectionCallback (detector w) with
               | Some prev, Some cb =>
                   if detectDialog (detector w) prev b
                   then [(cb, detection_event now (detector w))]
                   else []
               | _, _ => []
               end.
Proof.
  intros Hq Hid. destruct (quiet_live_timer w id delay Hq Hid) as [Ht Hm].
  destruct Hq as (Hs & _ & _).
  destruct w as [[iv th dir m tm prev dcb] tms nt susp cons del].
  simpl in *. subst susp m tm.
  unfold exec, step. cbn [timers]. rewrite Hid.
  destruct prev as [p|].
  - destruct (detectDialog
                {| screenshotInterval := iv; diffThreshold := th; screenshotDir := dir;
                   monitoring := true; monitorTimer := Some id;
                   previousScreenshot := Some p; detectionCallback := dcb |} p b)
      eqn:Hdet.
    + eexists. split.
      { cbn. rewrite Hdet. cbn. reflexivity. }
      destruct dcb; simpl; [reflexivity|by rewrite app_nil_r].
    + eexists. split.
      { cbn. rewrite Hdet. cbn. reflexivity. }
      destruct dcb; simpl; by rewrite app_nil_r.
  - eexists. split; [cbn; reflexivity|]. simpl. by rewrite app_nil_r.
Qed.


Lemma check_cycle_delivers_witness :
  ∃ w', exec monitoring_with_7 (OpTick 0 (Captured (zeros 100)) a_date) = Some w'
        ∧ delivered w' = [(7, detection_event a_date (detector monitoring_with_7))].
Proof.
  destruct (check_cycle_delivers monitoring_with_7 0 5000%float (zeros 100) a_date
              quiet_monitoring_with_7 eq_refl) as (w' & He & Hd).
  exists w'. split; [exact He|].
  rewrite Hd. vm_compute. reflexivity.
Defined.

(** An idle monitor in awaited use has no live timer. *)
Lemma quiet_idle_no_timer (w : World) :
  quiet w → monitoring (detector w) = false → timers w = ∅.
Proof.
  intros (_ & Hidle & Htm) Hm.
  destruct (Hidle Hm) as (_ & _ & Hnone).
  apply map_empty. intros id.
  destruct (timers w !! id) eqn:Hid; [|done].
  assert (monitorTimer (detector w) = Some id) by (apply Htm; eauto).
  congruence.
Qed.

(** X14. Starting an idle monitor and stopping it again, both awaited,
    gives back the detector as it was, with no live timer and nothing
    parked: configuration survives, baseline, callback and timer do not. *)
Theorem start_stop_round_trip (w : World) (cb : Callback) (b : Buffer) :
  quiet w →
  monitoring (detector w) = false →
  ∃ w', exec_all w [OpStartMonitoring cb (Captured b); OpStopMonitoring] = Some w'
        ∧ detector w' = detector w
        ∧ timers w' = ∅
        ∧ suspended w' = []
        ∧ delivered w' = delivered w.
Proof.
  intros Hq Hm. pose proof (quiet_idle_no_timer w Hq Hm) as Ht.
  destruct Hq as (Hs & Hidle & _). destruct (Hidle Hm) as (Hp & Hc & Hn).
  destruct w as [[iv th dir m tm prev dcb] tms nt susp cons del].
  simpl in *. subst.
  eexists. split; [cbn; reflexivity|]. cbn.
  repeat split. by rewrite delete_insert_eq, delete_empty.
Qed.

Lemma start_stop_round_trip_witness :
  ∃ w', exec_all (new_world None)
          [OpStartMonitoring 7 (Captured (zeros 3)); OpStopMonitoring] = Some w'
        ∧ detector w' = detector (new_world None).
Proof.
  destruct (start_stop_round_trip (new_world None) 7 (zeros 3)
              (quiet_new_world None) eq_refl) as (w' & He & Hd & _).
  exists w'. split; assumption.
Defined.

(** An awaited [setScreenshotInterval] on a running monitor with a callback
    and nothing parked. *)
Lemma exec_setScreenshotInterval_running
    (d : DialogDetector) (tms : gmap TimerId float) (nt : TimerId)
    (cons : list ConsoleLine) (del : list (Callback * DialogDetectionResult))
    (cb : Callback) (i : float) (b : Buffer) :
  monitoring d = true →
  detectionCallback d = Some cb →
  ∃ w1,
    exec {| detector := d; timers := tms; nextTimer := nt; suspended := [];
            console := cons; delivered := del |}
         (OpSetScreenshotInterval i (Captured b)) = Some w1
    ∧ detector w1
      = {| screenshotInterval := i; diffThreshold := diffThreshold d;
           screenshotDir := screenshotDir d; monitoring := true;
           monitorTimer := Some nt; previousScreenshot := Some b;
           detectionCallback := None |}
    ∧ timers w1
      = <[nt := timer_delay i]>
          (match monitorTimer d with Some id => delete id tms | None => tms end)
    ∧ nextTimer w1 = S nt
    ∧ suspended w1 = []
    ∧ delivered w1 = del.
Proof.
  intros Hm Hcb. destruct d as [iv th dir m tm prev dcb].
  simpl in Hm, Hcb. subst m dcb.
  destruct tm as [t|]; (eexists; split; [reflexivity|]); repeat split.
Qed.

(** An awaited [setScreenshotInterval] on a monitor without a callback. *)
Lemma exec_setScreenshotInterval_no_callback (w : World) (i : float) (c : Capture) :
  suspended w = [] →
  detectionCallback (detector w) = None →
  exec w (OpSetScreenshotInterval i c)
  = Some (with_detector (set_screenshotInterval i) w).
Proof.
  intros Hs Hcb. destruct w as [[iv th dir m tm prev dcb] tms nt susp cons del].
  simpl in Hs, Hcb. subst susp dcb.
  destruct m; reflexivity.
Qed.

(** Node keeps a delay within [1, 2147483647] as it is given. *)
Lemma timer_delay_in_range (after : float) :
  PrimFloat.leb 1 after = true → PrimFloat.leb after TIMEOUT_MAX = true →
  timer_delay after = after.
Proof. unfold timer_delay. by intros -> ->. Qed.

(** X15. On a monitor that is running with a callback, an awaited
    [setScreenshotInterval(i1)] replaces the timer by one new timer whose
    delay is what Node makes of [i1]: [i1] itself when it is within
    [1, 2147483647], and 1 otherwise (NaN included). A second call finds the
    callback gone, so it only stores its argument: the live timer keeps the
    delay of the first call. *)
Theorem second_setScreenshotInterval_keeps_timer
    (w : World) (cb : Callback) (i1 i2 : float) (b1 : Buffer) (c2 : Capture) :
  quiet w →
  monitoring (detector w) = true →
  detectionCallback (detector w) = Some cb →
  ∃ w1 w2,
    exec w (OpSetScreenshotInterval i1 (Captured b1)) = Some w1
    ∧ timers w1 = {[ nextTimer w := timer_delay i1 ]}
    ∧ (PrimFloat.leb 1 i1 && PrimFloat.leb i1 2147483647 = true →
       timers w1 = {[ nextTimer w := i1 ]})
    ∧ (PrimFloat.leb 1 i1 && PrimFloat.leb i1 2147483647 = false →
       timers w1 = {[ nextTimer w := 1%float ]})
    ∧ monitorTimer (detector w1) = Some (nextTimer w)
    ∧ exec w1 (OpSetScreenshotInterval i2 c2) = Some w2
    ∧ screenshotInterval (detector w2) = i2
    ∧ timers w2 = timers w1
    ∧ monitorTimer (detector w2) = Some (nextTimer w).
Proof.
  intros (Hs & _ & Htm) Hm Hcb.
  assert (Hdel : match monitorTimer (detector w) with
                 | Some id => delete id (timers w)
                 | None => timers w
                 end = ∅).
  { apply map_empty. intros id. destruct (monitorTimer (detector w)) as [t|].
    - destruct (decide (id = t)) as [->|Hne]; [apply lookup_delete_eq|].
      rewrite lookup_delete_ne by done.
      destruct (timers w !! id) eqn:Hid; [|done].
      assert (Some t = Some id) by (apply Htm; eauto). congruence.
    - destruct (timers w !! id) eqn:Hid; [|done].
      assert (None = Some id) by (apply Htm; eauto). congruence. }
  destruct w as [d tms nt susp cons del]. cbn [detector timers suspended nextTimer] in *.
  subst susp.
  destruct (exec_setScreenshotInterval_running d tms nt cons del cb i1 b1 Hm Hcb)
    as (w1 & He1 & Hd1 & Ht1 & _ & Hs1 & _).
  rewrite Hdel in Ht1.
  exists w1, (with_detector (set_screenshotInterval i2) w1).
  split; [exact He1|]. split; [exact Ht1|].
  split; [intros Hin; rewrite Ht1; unfold timer_delay, TIMEOUT_MAX; by rewrite Hin|].
  split; [intros Hout; rewrite Ht1; unfold timer_delay, TIMEOUT_MAX; by rewrite Hout|].
  split; [by rewrite Hd1|].
  split; [apply exec_setScreenshotInterval_no_callback; [exact Hs1|by rewrite Hd1]|].
  cbn [with_detector detector timers]. rewrite Hd1.
  split; [reflexivity|]. split; reflexivity.
Qed.

Lemma second_setScreenshotInterval_keeps_timer_witness :
  (∃ w1 w2,
     exec monitoring_with_7 (OpSetScreenshotInterval 1000 (Captured (zeros 3))) = Some w1
     ∧ exec w1 (OpSetScreenshotInterval 2000 (Captured (zeros 3))) = Some w2
     ∧ screenshotInterval (detector w2) = 2000%float
     ∧ timers w2 = {[ 1 := 1000%float ]})
  ∧ (∃ w1,
       exec monitoring_with_7 (OpSetScreenshotInterval 0.5 (Captured (zeros 3))) = Some w1
       ∧ timers w1 = {[ 1 := 1%float ]}).
Proof.
  split.
  - destruct (second_setScreenshotInterval_keeps_timer monitoring_with_7 7
                1000%float 2000%float (zeros 3) (Captured (zeros 3))
                quiet_monitoring_with_7 eq_refl eq_refl)
      as (w1 & w2 & H1 & _ & Hin & _ & _ & H2 & Hi & Ht & _).
    exists w1, w2. split; [exact H1|]. split; [exact H2|]. split; [exact Hi|].
    rewrite Ht. exact (Hin eq_refl).
  - destruct (second_setScreenshotInterval_keeps_timer monitoring_with_7 7
                0.5%float 2000%float (zeros 3) (Captured (zeros 3))
                quiet_monitoring_with_7 eq_refl eq_refl)
      as (w1 & w2 & H1 & _ & _ & Hout & _).
    exists w1. split; [exact H1|exact (Hout eq_refl)].
Defined.

(** X16. Awaited use never leaks a timer: after any sequence of awaited
    operations on a new monitor there is at most one live timer, it is the
    one [monitorTimer] holds, and an idle monitor has none. *)
Theorem awaited_no_timer_leak
    (options : option DialogDetectionOptions) (ops : list Op) (w : World) :
  exec_all (new_world options) ops = Some w →
  size (timers w) ≤ 1
  ∧ (∀ id, is_Some (timers w !! id) → monitorTimer (detector w) = Some id)
  ∧ (monitoring (detector w) = false → timers w = ∅).
Proof.
  intros He.
  assert (Hq : quiet w) by (eapply exec_all_quiet; [apply quiet_new_world|exact He]).
  split; [|split; [apply Hq|apply quiet_idle_no_timer, Hq]].
  destruct Hq as (_ & _ & Htm).
  destruct (monitorTimer (detector w)) as [t|] eqn:Ht.
  - assert (Hsub : timers w ⊆ {[ t := default 0%float (timers w !! t) ]}).
    { apply map_subseteq_spec. intros id x Hid.
      assert (Some t = Some id) as [= ->] by (apply Htm; eauto).
      rewrite Hid. apply lookup_singleton_eq. }
    etrans; [apply (map_subseteq_size _ _ Hsub)|]. by rewrite map_size_singleton.
  - assert (timers w = ∅) as ->.
    { apply map_empty. intros id. destruct (timers w !! id) eqn:Hid; [|done].
      assert (None = Some id) by (apply Htm; eauto). congruence. }
    rewrite map_size_empty. lia.
Qed.

Lemma awaited_no_timer_leak_witness :
  size (timers awaited_world) ≤ 1.
Proof.
  assert (He : exec_all (new_world None) awaited_ops = Some awaited_world)
    by (vm_compute; reflexivity).
  exact (proj1 (awaited_no_timer_leak None awaited_ops awaited_world He)).
Defined.

Local Transparent detectDialog sizeDiff saveScreenshot_path.

(** *** The name of a saved screenshot *)

Lemma replace_colon_dot_cons (c : ascii) (s : string) :
  replace_colon_dot (String c s)
  = String (if colon_or_dot c then "-"%char else c) (replace_colon_dot s).
Proof. reflexivity. Qed.

Lemma replace_colon_dot_get (s : string) (n : nat) :
  String.get n (replace_colon_dot s)
  = (λ c, if colon_or_dot c then "-"%char else c) <$> String.get n s.
Proof.
  revert n. induction s as [|c s IH]; intros n; simpl; [done|].
  destruct n as [|n]; simpl; [done|apply IH].
Qed.

(** X10. The timestamp part of a saved screenshot's name has the length of
    the ISO timestamp and contains neither a colon nor a dot: every such
    character, and no other, has become a dash. Replacing again changes
    nothing, and the path is [<dir>/dialog-detected-<timestamp>.png]. *)
Theorem replace_colon_dot_clean (now : Date) (d : DialogDetector) :
  String.length (replace_colon_dot now) = String.length now
  ∧ (∀ n c, String.get n (replace_colon_dot now) = Some c → colon_or_dot c = false)
  ∧ (∀ n c, String.get n now = Some c → colon_or_dot c = false →
            String.get n (replace_colon_dot now) = Some c)
  ∧ (∀ n c, String.get n now = Some c → colon_or_dot c = true →
            String.get n (replace_colon_dot now) = Some "-"%char)
  ∧ replace_colon_dot (replace_colon_dot now) = replace_colon_dot now
  ∧ saveScreenshot_path now d
    = screenshotDir d +:+ "/dialog-detected-" +:+ replace_colon_dot now +:+ ".png".
Proof.
  split; [|split; [|split; [|split; [|split]]]].
  - induction now as [|c s IH]; simpl; [done|by rewrite IH].
  - intros n c. rewrite replace_colon_dot_get.
    destruct (String.get n now) as [c0|]; simpl; [|done].
    intros [= <-]. by destruct (colon_or_dot c0) eqn:Hc.
  - intros n c Hn Hc. by rewrite replace_colon_dot_get, Hn; simpl; rewrite Hc.
  - intros n c Hn Hc. by rewrite replace_colon_dot_get, Hn; simpl; rewrite Hc.
  - induction now as [|c s IH]; [done|].
    rewrite !replace_colon_dot_cons, IH. f_equal.
    by destruct (colon_or_dot c) eqn:Hc; [|rewrite Hc].
  - reflexivity.
Qed.

(** *** A threshold that is NaN *)

(** X18. [setDiffThreshold(NaN)] is accepted, and with a NaN threshold
    [detectDialog] is false for every pair of captures: detection is
    switched off. *)
Theorem NaN_threshold_disables_detection (t : float) (d : DialogDetector) :
  PrimFloat.is_nan t = true →
  setDiffThreshold t d = inr (set_diffThreshold t d)
  ∧ ∀ prev current, detectDialog (set_diffThreshold t d) prev current = false.
Proof.
  intros Hnan. split.
  - unfold setDiffThreshold, out_of_range.
    by rewrite !FloatFacts.ltb_nan by auto.
  - intros prev current. unfold detectDialog. simpl. apply FloatFacts.ltb_nan. by left.
Qed.

Lemma NaN_threshold_disables_detection_witness :
  detectDialog (set_diffThreshold PrimFloat.nan (constructor None)) (zeros 100) [] = false.
Proof.
  apply (NaN_threshold_disables_detection PrimFloat.nan (constructor None) eq_refl).
Defined.

(** *** The constructor does not validate *)

(** X17. The constructor stores any number that is not 0 or NaN as it is
    given, the threshold as well as the interval, including thresholds
    outside [0,1] that [setDiffThreshold] refuses. *)
Theorem constructor_keeps_truthy (interval threshold : float) (dir : option string) :
  truthy interval = true →
  truthy threshold = true →
  diffThreshold (constructor (Some {| opt_screenshotInterval := Some interval;
                                      opt_diffThreshold := Some threshold;
                                      opt_screenshotDir := dir |})) = threshold
  ∧ screenshotInterval (constructor (Some {| opt_screenshotInterval := Some interval;
                                             opt_diffThreshold := Some threshold;
                                             opt_screenshotDir := dir |})) = interval.
Proof. intros Hi Ht. unfold constructor. simpl. by rewrite Hi, Ht. Qed.

Lemma constructor_keeps_truthy_witness :
  diffThreshold (constructor (Some {| opt_screenshotInterval := Some (-1)%float;
                                      opt_diffThreshold := Some 1.5%float;
                                      opt_screenshotDir := None |})) = 1.5%float
  ∧ setDiffThreshold 1.5%float (constructor None) = inl threshold_error.
Proof.
  split; [|reflexivity].
  apply (constructor_keeps_truthy (-1)%float 1.5%float None eq_refl eq_refl).
Defined.

(** *** The stub never triggers a detection *)

Lemma detectDialog_stub (d : DialogDetector) :
  detectDialog d takeScreenshot_stub takeScreenshot_stub = false.
Proof. unfold detectDialog. apply FloatFacts.ltb_nan. right. reflexivity. Qed.

Lemma silent_new_world (options : option DialogDetectionOptions) :
  silent (new_world options).
Proof. repeat split; simpl; auto. Qed.

Lemma step_silent (w w' : World) (s : Step) :
  silent w → stub_capture s → step w s = Some w' → silent w'.
Proof.
  intros (Hd & Hp & Hs) Hstub He.
  destruct w as [[iv th dir m tm prev dcb] tms nt susp cons del].
  simpl in Hd, Hp, Hs. subst del.
  destruct s as [cb| |i|t|id|k c now|k r now]; simpl in Hstub.
  - destruct m; monitor_eval He; injection He as <-; repeat split; simpl; auto.
    apply Forall_app. split; [done|]. by repeat constructor.
  - destruct m; monitor_eval He.
    + destruct tm; monitor_eval He; injection He as <-; repeat split; simpl; auto.
    + injection He as <-. repeat split; simpl; auto.
  - destruct m; monitor_eval He.
    + destruct dcb as [cb|]; monitor_eval He.
      * destruct tm; monitor_eval He; injection He as <-; repeat split; simpl; auto;
          (apply Forall_app; split; [done|]; by repeat constructor).
      * injection He as <-. repeat split; simpl; auto.
    + injection He as <-. repeat split; simpl; auto.
  - monitor_eval He. destruct (out_of_range t); injection He as <-;
      repeat split; simpl; auto.
  - monitor_eval He. destruct (tms !! id); [|discriminate]. injection He as <-.
    repeat split; simpl; auto.
    apply Forall_app. split; [done|]. by repeat constructor.
  - subst c. monitor_eval He.
    destruct (susp !! k) as [[| |cur path]|] eqn:Hk; [| | |discriminate].
    + monitor_eval He. injection He as <-. repeat split; simpl; auto.
      by apply Forall_delete.
    + monitor_eval He.
      destruct Hp as [-> | ->]; monitor_eval He.
      * injection He as <-. repeat split; simpl; auto. by apply Forall_delete.
      * rewrite (detectDialog_stub _) in He. injection He as <-.
        repeat split; simpl; auto. by apply Forall_delete.
    + exfalso. eapply Forall_lookup_1 in Hs; [|exact Hk]. exact Hs.
  - unfold step in He. cbn [suspended] in He.
    destruct (susp !! k) as [[| |cur path]|] eqn:Hk; try discriminate He.
    exfalso. eapply Forall_lookup_1 in Hs; [|exact Hk]. exact Hs.
Qed.

(** X11. As long as every capture is what the stub [takeScreenshot] of the
    source returns (an empty buffer), no detection event is ever delivered,
    whatever is called, in whatever order, with whatever threshold: the
    divergence of two empty captures is 0/0. *)
Theorem stub_never_detects
    (options : option DialogDetectionOptions) (steps : list Step) (w : World) :
  Forall stub_capture steps →
  run (new_world options) steps = Some w →
  delivered w = [].
Proof.
  intros Hstub Hrun.
  assert (H : ∀ w0, silent w0 → run w0 steps = Some w → silent w).
  { clear Hrun. induction steps as [|s steps IH]; intros w0 Hs Hrun; simpl in Hrun.
    - by injection Hrun as <-.
    - destruct (step w0 s) as [w1|] eqn:E; [|discriminate].
      apply Forall_cons in Hstub as [Hs1 Hrest].
      eapply IH; [exact Hrest| |exact Hrun]. by eapply step_silent. }
  by destruct (H _ (silent_new_world options) Hrun).
Qed.

Lemma stub_never_detects_witness :
  ∃ w, run (new_world None)
         [CallStartMonitoring 7; Resume 0 (Captured takeScreenshot_stub) a_date;
          TimerFires 0; Resume 0 (Captured takeScreenshot_stub) a_date;
          TimerFires 0; Resume 0 (Captured takeScreenshot_stub) a_date] = Some w
       ∧ delivered w = [].
Proof.
  eexists. split; [vm_compute; reflexivity|].
  eapply (stub_never_detects None
            [CallStartMonitoring 7; Resume 0 (Captured takeScreenshot_stub) a_date;
             TimerFires 0; Resume 0 (Captured takeScreenshot_stub) a_date;
             TimerFires 0; Resume 0 (Captured takeScreenshot_stub) a_date]).
  - repeat constructor.
  - vm_compute. reflexivity.
Defined.

(** *** Captures of the same size *)

Lemma Math_max_same (x : float) :
  Math_max x x = if PrimFloat.is_nan x then PrimFloat.nan else x.
Proof.
  unfold Math_max. destruct (PrimFloat.is_nan x); [reflexivity|]. simpl.
  destruct (PrimFloat.ltb x x); [reflexivity|].
  by destruct (PrimFloat.is_zero x && PrimFloat.get_sign x).
Qed.

(** [|x - x| / max(x, x)] is a zero or NaN, so it is above no threshold that
    is not itself below zero. *)
Lemma self_diff_not_above (t x : float) :
  PrimFloat.ltb t 0 = false →
  PrimFloat.ltb t (PrimFloat.div (Math_abs (PrimFloat.sub x x)) (Math_max x x)) = false.
Proof.
  intros Ht. rewrite Math_max_same.
  destruct (PrimFloat.is_nan x) eqn:Hnan.
  - rewrite FloatAxioms.ltb_spec, FloatAxioms.div_spec.
    replace (Prim2SF PrimFloat.nan) with S754_nan by reflexivity.
    unfold SFltb, SF64div, SFdiv.
    destruct (Prim2SF (Math_abs (x - x))), (Prim2SF t); reflexivity.
  - rewrite FloatAxioms.ltb_spec in Ht |- *.
    replace (Prim2SF 0) with (S754_zero false) in Ht by reflexivity.
    unfold Math_abs.
    rewrite FloatAxioms.div_spec, FloatAxioms.abs_spec, FloatAxioms.sub_spec.
    apply FloatFacts.is_nan_false in Hnan.
    destruct (Prim2SF x) as [s|s| |s m e]; [| | done |].
    + assert (SF64sub (S754_zero s) (S754_zero s) = S754_zero false) as ->
        by (by destruct s).
      by destruct (Prim2SF t).
    + assert (SF64sub (S754_infinity s) (S754_infinity s) = S754_nan) as ->
        by (by destruct s).
      by destruct (Prim2SF t).
    + assert (SF64sub (S754_finite s m e) (S754_finite s m e) = S754_zero false) as ->.
      { unfold SF64sub, SFsub. by rewrite Z.sub_diag. }
      assert (SF64div (SFabs (S754_zero false)) (S754_finite s m e) = S754_zero s) as ->
        by (by destruct s).
      unfold SFltb in *. destruct (Prim2SF t) as [[]|[]| |[] ? ?], s; done.
Qed.

(** X19. Two captures of the same length are never taken for a dialog,
    whatever they contain, as long as the threshold is not below zero: the
    detection compares sizes only. *)
Theorem detectDialog_same_length (d : DialogDetector) (prev current : Buffer) :
  length prev = length current →
  PrimFloat.ltb (diffThreshold d) 0 = false →
  detectDialog d prev current = false.
Proof.
  intros Hlen Ht. unfold detectDialog, sizeDiff, Buffer_length.
  rewrite Hlen. by apply self_diff_not_above.
Qed.

Lemma detectDialog_same_length_witness :
  detectDialog (constructor None) (zeros 100) (repeat Byte.xff 100) = false.
Proof.
  apply (detectDialog_same_length (constructor None) (zeros 100) (repeat Byte.xff 100));
    reflexivity.
Defined.

(** X20. [setDiffThreshold] lets through only thresholds under which
    captures of the same length are never taken for a dialog. *)
Theorem setDiffThreshold_same_length
    (t : float) (d d' : DialogDetector) (prev current : Buffer) :
  setDiffThreshold t d = inr d' →
  length prev = length current →
  detectDialog d' prev current = false.
Proof.
  unfold setDiffThreshold, out_of_range. intros Hset Hlen.
  destruct (PrimFloat.ltb t 0) eqn:Hlt; [done|].
  destruct (PrimFloat.ltb 1 t); [done|].
  injection Hset as <-. by apply detectDialog_same_length.
Qed.

Lemma setDiffThreshold_same_length_witness :
  detectDialog (set_diffThreshold 0.5 (constructor None)) (zeros 8) (repeat Byte.xff 8)
  = false.
Proof.
  apply (setDiffThreshold_same_length 0.5 (constructor None)
           (set_diffThreshold 0.5 (constructor None)) (zeros 8) (repeat Byte.xff 8));
    reflexivity.
Defined.

End DialogFacts.

(** ** Session registry *)
Module SessionFacts.
Import Js Session SessionProps.

(** Distinct indices give distinct session names. *)
Lemma parallel_name_inj (i j : nat) : parallel_name i = parallel_name j → i = j.
Proof.
  unfold parallel_name. intros H.
  apply (inj (String.append "parallel-")) in H.
  by apply (inj pretty) in H.
Qed.

(** [createSession] with a non-empty name: the duplicate check, then the
    insertion. *)
Lemma createSession_named (c : Ascii.ascii) (s : string) (st : Store) :
  createSession (Some (String c s)) st =
    match sessions st !! String c s with
    | Some _ => (inl (duplicate_error (String c s)), st)
    | None =>
        (inr (length (heap st)),
         {| heap := heap st ++ [new_ChromeSession (String c s)];
            sessions := <[String c s := length (heap st)]> (sessions st);
            sessionCounter := sessionCounter st |})
    end.
Proof.
  destruct st as [h m n]. unfold createSession. cbn [sessions heap sessionCounter].
  destruct (m !! String c s); reflexivity.
Qed.

Lemma createSession_parallel (index : nat) (st : Store) :
  createSession (Some (parallel_name index)) st =
    match sessions st !! parallel_name index with
    | Some _ => (inl (duplicate_error (parallel_name index)), st)
    | None =>
        (inr (length (heap st)),
         {| heap := heap st ++ [new_ChromeSession (parallel_name index)];
            sessions := <[parallel_name index := length (heap st)]> (sessions st);
            sessionCounter := sessionCounter st |})
    end.
Proof. apply createSession_named. Qed.

Section Settle.
Context {T : Type}.
Implicit Types (f : Fanout T) (i j : nat).

(** A settled wrapper stays as it is, and settling one wrapper leaves the
    others alone. *)
Lemma settle_settled f i cleanup s :
  wrappers f !! i = Some (Settled s) → settle cleanup f i = f.
Proof. intros H. unfold settle. by rewrite H. Qed.

Lemma settle_other f i j cleanup :
  i ≠ j → wrappers (settle cleanup f i) !! j = wrappers f !! j.
Proof.
  intros Hne. unfold settle.
  destruct (wrappers f !! i) as [[task r|s]|]; try reflexivity.
  destruct (heap (store f) !! r); try reflexivity.
  simpl. by rewrite list_lookup_insert_ne.
Qed.

Lemma settle_keeps_settled f i j cleanup :
  is_settled f i → is_settled (settle cleanup f j) i.
Proof.
  intros [s Hs]. destruct (decide (j = i)) as [->|Hne].
  - rewrite (settle_settled _ _ _ _ Hs). by exists s.
  - exists s. by rewrite settle_other.
Qed.

(** Running a schedule: an invariant of [settle] holds at the end, and every
    index the schedule names (below [n]) has settled. *)
Lemma foldl_settle (cleanup : bool) (n : nat) (P : Fanout T → Prop) :
  (∀ f i, P f → P (settle cleanup f i)) →
  (∀ f i, P f → i < n → is_settled (settle cleanup f i) i) →
  ∀ schedule f,
    P f →
    P (foldl (settle cleanup) f schedule)
    ∧ ∀ i, i < n → i ∈ schedule ∨ is_settled f i →
           is_settled (foldl (settle cleanup) f schedule) i.
Proof.
  intros Hstep Hdone schedule.
  induction schedule as [|j schedule IH]; intros f Hf; simpl.
  - split; [done|]. intros i _ [Hin|Hs]; [by apply elem_of_nil in Hin|done].
  - destruct (IH (settle cleanup f j) (Hstep _ _ Hf)) as [HP Hall].
    split; [done|]. intros i Hi [Hin|Hs].
    + apply elem_of_cons in Hin as [->|Hin].
      * apply Hall; [done|]. right. by apply Hdone.
      * apply Hall; [done|]. by left.
    + apply Hall; [done|]. right. by apply settle_keeps_settled.
Qed.
End Settle.

(** A task writes to its own session object only. *)
Lemma task_effect_frame (o : option Z) (r : Ref) (st : Store) :
  sessions (task_effect o r st) = sessions st
  ∧ sessionCounter (task_effect o r st) = sessionCounter st
  ∧ length (heap (task_effect o r st)) = length (heap st)
  ∧ ∀ k, k ≠ r → heap (task_effect o r st) !! k = heap st !! k.
Proof.
  destruct o as [n|]; simpl; [|done].
  unfold store_setTabId. destruct (heap st !! r) as [s|]; simpl; [|done].
  repeat split; try done.
  - by rewrite length_insert.
  - intros k Hk. by rewrite list_lookup_insert_ne.
Qed.

Section Ephemeral.
Context {T : Type} (tasks : list (Task T)) (st0 : Store).
Implicit Types (f : Fanout T) (i j : nat).

(** The synchronous part of [runParallel] when the names are free: every
    task gets a new session under its own name. *)
Lemma spawned_begin : spawned (T := T) st0 [] (begin_call st0).
Proof.
  repeat split; simpl; try done.
  - by rewrite app_nil_r.
  - intros i Hi. lia.
Qed.

Lemma spawn_ephemeral_fresh (rest : list (Task T)) :
  ∀ done f,
    spawned st0 done f →
    (∀ i, i < length done + length rest → sessions st0 !! parallel_name i = None) →
    spawned st0 (done ++ rest) (spawn_ephemeral (length done) rest f).
Proof.
  induction rest as [|task rest IH]; intros done f Hsp Hfresh.
  - by rewrite app_nil_r.
  - destruct Hsp as (Hw & Hh & Hc & Hr & Hin & Hout).
    assert (Hlen : length (heap (store f)) = length (heap st0) + length done).
    { rewrite Hh, length_app, length_imap. done. }
    simpl. rewrite createSession_parallel.
    rewrite (Hout (parallel_name (length done))), Hfresh; cycle 1.
    { simpl. lia. }
    { intros i Hi Heq. apply parallel_name_inj in Heq. lia. }
    replace (done ++ task :: rest) with ((done ++ [task]) ++ rest)
      by (by rewrite <- app_assoc).
    replace (S (length done)) with (length (done ++ [task]))
      by (rewrite length_app; simpl; lia).
    apply IH.
    + unfold push_running. repeat split; simpl.
      * rewrite Hw, imap_app. simpl. by rewrite Hlen, Nat.add_0_r.
      * rewrite Hh, imap_app. simpl. by rewrite <- app_assoc, Nat.add_0_r.
      * done.
      * done.
      * intros i Hi. rewrite length_app in Hi. simpl in Hi.
        destruct (decide (i = length done)) as [->|Hne].
        -- by rewrite lookup_insert_eq, Hlen.
        -- rewrite lookup_insert_ne; [apply Hin; lia|].
           intros Heq. apply parallel_name_inj in Heq. lia.
      * intros key Hkey. rewrite lookup_insert_ne.
        -- apply Hout. intros i Hi. apply Hkey. rewrite length_app. simpl. lia.
        -- intros Heq. apply (Hkey (length done)); [|done].
           rewrite length_app. simpl. lia.
    + intros i Hi. apply Hfresh. rewrite length_app in Hi. simpl in *. lia.
Qed.

Lemma spawned_in_flight f : spawned st0 tasks f → in_flight tasks st0 f.
Proof.
  intros (Hw & Hh & Hc & Hr & Hin & Hout).
  repeat split.
  - by rewrite Hw, length_imap.
  - by rewrite Hh, length_app, length_imap.
  - done.
  - done.
  - intros i task Hi. left. split; [|split].
    + by rewrite Hw, list_lookup_imap, Hi.
    + rewrite Hh, lookup_app_r by lia.
      replace (length (heap st0) + i - length (heap st0)) with i by lia.
      by rewrite list_lookup_imap, Hi.
    + apply Hin. by apply lookup_lt_Some in Hi.
  - intros e He. congruence.
  - intros i e Hi. rewrite Hw, list_lookup_imap in Hi.
    destruct (tasks !! i); simpl in Hi; congruence.
Qed.

(** Settling a wrapper keeps the call in flight and settles that wrapper. *)
Lemma settle_in_flight f i : in_flight tasks st0 f → in_flight tasks st0 (settle true f i).
Proof.
  intros (Hlen & Hheap & Hc & Hout & Hidx & Hrej & Hsome).
  unfold settle.
  destruct (wrappers f !! i) as [[task r|s]|] eqn:Hwi; try done.
  assert (Hi : i < length tasks) by (rewrite <- Hlen; by eapply lookup_lt_Some).
  destruct (lookup_lt_is_Some_2 tasks i Hi) as [task' Htask].
  destruct (Hidx i task' Htask) as [(Hw & Hh & Hs)|(Hw & _)]; [|congruence].
  rewrite Hwi in Hw. injection Hw as -> ->. unfold Ref in *. rewrite Hh.
  fold (task_effect (setsTabId (task' (fresh i))) (length (heap st0) + i) (store f)).
  destruct (task_effect_frame (setsTabId (task' (fresh i))) (length (heap st0) + i) (store f))
    as (Es & Ec & El & Eh).
  set (st1 := task_effect _ _ _) in *.
  repeat split; simpl.
  - by rewrite length_insert.
  - by rewrite El.
  - by rewrite Ec.
  - intros key Hkey. rewrite lookup_delete_ne, Es; [by apply Hout|].
    intros Heq. by apply (Hkey i).
  - intros j task Hj. destruct (decide (j = i)) as [->|Hne].
    + right. assert (task = task') as -> by congruence. split.
      * apply list_lookup_insert_eq. by rewrite Hlen.
      * apply lookup_delete_eq.
    + assert (Hname : parallel_name i ≠ parallel_name j).
      { intros Heq. apply parallel_name_inj in Heq. lia. }
      rewrite list_lookup_insert_ne by done.
      destruct (Hidx j task Hj) as [(Hw & Hh' & Hs')|(Hw & Hs')]; [left|right].
      * split; [done|]. split; [by rewrite Eh by lia|].
        rewrite lookup_delete_ne by done. by rewrite Es.
      * split; [done|]. rewrite lookup_delete_ne by done. by rewrite Es.
  - intros e He. fold (outcome i task') in He.
    destruct (outcome i task') as [v|e'] eqn:Ho.
    + by apply Hrej.
    + destruct (rejection f) as [e0|] eqn:Hr; simpl in He.
      * apply Hrej. congruence.
      * exists i, task'. split; [done|]. congruence.
  - intros j e Hj. fold (outcome i task') in *.
    destruct (decide (j = i)) as [->|Hne].
    + rewrite list_lookup_insert_eq in Hj by (by rewrite Hlen).
      injection Hj as Hj. rewrite Hj.
      destruct (rejection f); simpl; eauto.
    + rewrite list_lookup_insert_ne in Hj by done.
      specialize (Hsome j e Hj).
      destruct (outcome i task'); [done|].
      destruct (rejection f); simpl; eauto.
Qed.

End Ephemeral.






(** The promise of the call is rejected as soon as the first task throws;
    the sessions of the tasks that are still running stay registered until
    those tasks settle. *)
Example runParallel_rejected_before_cleanup :
  returned (runParallel [returns_7; throws_boom; returns_7] [1] new_SessionManager)
    = Rejected (ErrorObject "boom")
  ∧ getSessionCount
      (store (runParallel [returns_7; throws_boom; returns_7] [1] new_SessionManager))
    = 2.
Proof. split; vm_compute; reflexivity. Qed.


(** C5. [runParallelWithSessions] with lists of different lengths is
    rejected with the arity error and leaves the store, hence the registry's
    session map, as it was: no session is created. *)
Theorem runParallelWithSessions_arity {T : Type}
    (sessionNames : list string) (tasks : list (Task T)) (schedule : list nat)
    (st : Store) :
  length sessionNames ≠ length tasks →
  returned (runParallelWithSessions sessionNames tasks schedule st)
    = Rejected (arity_error (length sessionNames) (length tasks))
  ∧ store (runParallelWithSessions sessionNames tasks schedule st) = st
  ∧ sessions (store (runParallelWithSessions sessionNames tasks schedule st))
    = sessions st.
Proof.
  intros Hne. unfold runParallelWithSessions.
  destruct (Nat.eqb_spec (length sessionNames) (length tasks)) as [Heq|_]; [done|].
  simpl. repeat split; reflexivity.
Qed.

Lemma runParallelWithSessions_arity_witness :
  returned (runParallelWithSessions ["A"; "B"] [readTabId; readTabId; readTabId]
              [0; 1; 2] new_SessionManager)
    = Rejected (ErrorObject "Number of sessions (2) must match number of tasks (3)")
  ∧ sessions (store (runParallelWithSessions ["A"; "B"]
                       [readTabId; readTabId; readTabId] [0; 1; 2] new_SessionManager))
    = ∅.
Proof.
  pose proof (runParallelWithSessions_arity ["A"; "B"]
                [readTabId; readTabId; readTabId] [0; 1; 2] new_SessionManager) as H.
  simpl in H. specialize (H ltac:(lia)).
  split; apply H.
Defined.

Section NamedSessions.
Variables (st : Store) (a b : nat).
Hypothesis HA : sessions st !! "A" = Some a.
Hypothesis HB : sessions st !! "B" = Some b.
Hypothesis Ha : heap st !! a = Some session_A.
Hypothesis Hb : heap st !! b = Some session_B.

(** The call of C9 stays in the [reading] state, and a settled wrapper has
    read its handle. *)
Lemma spawn_named_reading :
  reading st a b (spawn_named ["A"; "B"] [readTabId; readTabId] (begin_call st)).
Proof.
  unfold spawn_named, getSession, begin_call. cbn [store]. unfold Ref in *.
  rewrite HA.
  unfold push_running. cbn [store wrappers rejection]. rewrite HB. simpl.
  repeat split. exists (Running readTabId a), (Running readTabId b).
  split; [reflexivity|]. split; by left.
Qed.

Lemma settle_reading (f : Fanout (option Z)) (i : nat) :
  reading st a b f → reading st a b (settle false f i).
Proof.
  intros (Hst & Hrej & w0 & w1 & Hws & H0 & H1).
  destruct f as [s ws r]. simpl in *. subst s ws r. unfold settle. simpl.
  destruct i as [|[|i]]; simpl.
  - destruct H0 as [->| ->]; simpl.
    + unfold Ref in *. rewrite Ha. simpl. repeat split.
      eexists _, _. split; [reflexivity|]. split; [by right|done].
    + repeat split. eexists _, _. split; [reflexivity|]. split; [by right|done].
  - destruct H1 as [->| ->]; simpl.
    + unfold Ref in *. rewrite Hb. simpl. repeat split.
      eexists _, _. split; [reflexivity|]. split; [done|by right].
    + repeat split. eexists _, _. split; [reflexivity|]. split; [done|by right].
  - repeat split. eexists _, _. split; [reflexivity|]. done.
Qed.

Lemma settle_reading_done (f : Fanout (option Z)) (i : nat) :
  reading st a b f → i < 2 → is_settled (settle false f i) i.
Proof.
  intros (Hst & Hrej & w0 & w1 & Hws & H0 & H1) Hi.
  destruct f as [s ws r]. simpl in *. subst s ws r. unfold settle, is_settled. simpl.
  destruct i as [|[|i]]; [| |lia]; simpl.
  - destruct H0 as [->| ->]; simpl.
    + unfold Ref in *. rewrite Ha. simpl. by eexists.
    + by eexists.
  - destruct H1 as [->| ->]; simpl.
    + unfold Ref in *. rewrite Hb. simpl. by eexists.
    + by eexists.
Qed.

Lemma runParallelWithSessions_reads (schedule : list nat) :
  complete 2 schedule →
  returned (runParallelWithSessions ["A"; "B"] [readTabId; readTabId] schedule st)
    = Fulfilled [Some 111%Z; Some 222%Z]
  ∧ store (runParallelWithSessions ["A"; "B"] [readTabId; readTabId] schedule st) = st.
Proof.
  intros Hcomplete.
  unfold runParallelWithSessions. simpl length. simpl negb. cbv iota.
  destruct (foldl_settle false 2 (reading st a b) settle_reading settle_reading_done
              schedule _ spawn_named_reading) as [Hr Hall].
  set (f := foldl _ _ _) in *.
  destruct Hr as (Hst & Hrej & w0 & w1 & Hws & H0 & H1).
  destruct (Hall 0 ltac:(lia) (or_introl (Hcomplete 0 ltac:(lia)))) as [s0 Hs0].
  destruct (Hall 1 ltac:(lia) (or_introl (Hcomplete 1 ltac:(lia)))) as [s1 Hs1].
  rewrite Hws in Hs0, Hs1. simpl in Hs0, Hs1.
  destruct H0 as [->| ->]; [discriminate|].
  destruct H1 as [->| ->]; [discriminate|].
  split; [|done]. unfold returned. by rewrite Hrej, Hws.
Qed.
End NamedSessions.

(** C9. In a registry where "A" and "B" name sessions with tab handles 111
    and 222, [runParallelWithSessions(["A","B"], [readTabId, readTabId])]
    returns [111, 222] in input order once both tasks have settled, in
    whatever order they settle; the store is unchanged, so both names still
    resolve to the same sessions and these still carry 111 and 222. *)
Theorem runParallelWithSessions_reads_handles
    (st : Store) (a b : nat) (schedule : list nat) :
  sessions st !! "A" = Some a →
  sessions st !! "B" = Some b →
  heap st !! a = Some session_A →
  heap st !! b = Some session_B →
  complete 2 schedule →
  let f := runParallelWithSessions ["A"; "B"] [readTabId; readTabId] schedule st in
  returned f = Fulfilled [Some 111%Z; Some 222%Z]
  ∧ store f = st
  ∧ getSession "A" (store f) = Some a ∧ heap (store f) !! a = Some session_A
  ∧ getSession "B" (store f) = Some b ∧ heap (store f) !! b = Some session_B.
Proof.
  intros HA HB Ha Hb Hcomplete f.
  destruct (runParallelWithSessions_reads st a b HA HB Ha Hb schedule Hcomplete)
    as [Hret Hst].
  fold f in Hret, Hst. rewrite Hst. unfold getSession. by repeat split.
Qed.

Lemma complete_2 : complete 2 [1; 0].
Proof. intros i Hi. destruct i as [|[|i]]; [set_solver..|lia]. Qed.

Lemma runParallelWithSessions_reads_handles_witness :
  returned (runParallelWithSessions ["A"; "B"] [readTabId; readTabId] [1; 0] registry_A_B)
    = Fulfilled [Some 111%Z; Some 222%Z]
  ∧ store (runParallelWithSessions ["A"; "B"] [readTabId; readTabId] [1; 0] registry_A_B)
    = registry_A_B.
Proof.
  pose proof (runParallelWithSessions_reads_handles registry_A_B 0 1 [1; 0]
                eq_refl eq_refl eq_refl eq_refl complete_2) as H.
  split; apply H.
Defined.

(** *** The registry and its sessions *)

(** *** The registry's own operations *)

(** X1. [createSession(name)] with a non-empty name that is free registers a
    new session object with that id and no tab, leaves every other name as it
    was and raises the count by one; [getSession(name)] then returns that
    object, and a second [createSession(name)] throws the duplicate error
    and changes nothing. *)
Theorem createSession_getSession (name : string) (st : Store) :
  name ≠ EmptyString →
  getSession name st = None →
  ∃ r st',
    createSession (Some name) st = (inr r, st')
    ∧ getSession name st' = Some r
    ∧ heap st' !! r = Some (new_ChromeSession name)
    ∧ (∀ other, other ≠ name → getSession other st' = getSession other st)
    ∧ (∀ r', r' < length (heap st) → heap st' !! r' = heap st !! r')
    ∧ getSessionCount st' = S (getSessionCount st)
    ∧ sessionCounter st' = sessionCounter st
    ∧ createSession (Some name) st' = (inl (duplicate_error name), st').
Proof.
  intros Hne Hfree. destruct name as [|c s]; [done|].
  unfold getSession in *.
  eexists _, _. split.
  { rewrite createSession_named, Hfree. reflexivity. }
  unfold getSession, getSessionCount. simpl.
  split; [apply lookup_insert_eq|].
  split; [by rewrite lookup_app_r, Nat.sub_diag by lia|].
  split; [intros other Ho; by rewrite lookup_insert_ne|].
  split; [intros r' Hr'; by rewrite lookup_app_l|].
  split; [by apply map_size_insert_None|].
  split; [done|].
  rewrite createSession_named. simpl. by rewrite lookup_insert_eq.
Qed.

Lemma createSession_getSession_witness :
  ∃ r st',
    createSession (Some "main-task") new_SessionManager = (inr r, st')
    ∧ getSession "main-task" st' = Some r.
Proof.
  destruct (createSession_getSession "main-task" new_SessionManager
              ltac:(discriminate) eq_refl) as (r & st' & H1 & H2 & _).
  exists r, st'. split; assumption.
Defined.

(** X2. [createSession()] takes the name [session-<counter>] and always
    advances the counter, also when that name is taken and the call throws
    (the registry is then unchanged); an empty name is treated like a missing
    one. *)
Theorem createSession_auto_name (st : Store) :
  createSession (Some EmptyString) st = createSession None st
  ∧ sessionCounter (createSession None st).2 = S (sessionCounter st)
  ∧ match getSession (auto_name st) st with
    | None =>
        ∃ r, (createSession None st).1 = inr r
             ∧ getSession (auto_name st) (createSession None st).2 = Some r
             ∧ heap (createSession None st).2 !! r
               = Some (new_ChromeSession (auto_name st))
    | Some _ =>
        (createSession None st).1 = inl (duplicate_error (auto_name st))
        ∧ sessions (createSession None st).2 = sessions st
        ∧ heap (createSession None st).2 = heap st
    end.
Proof.
  split; [reflexivity|].
  destruct st as [h m n]. unfold createSession, getSession, auto_name.
  cbn [sessions heap sessionCounter].
  destruct (m !! ("session-" +:+ pretty n)) as [r|] eqn:Hm; cbn [fst snd].
  - repeat split.
  - cbn [sessions heap sessionCounter]. split; [done|].
    eexists. split; [reflexivity|].
    split; [apply lookup_insert_eq|].
    by rewrite lookup_app_r, Nat.sub_diag by lia.
Qed.

(** X3. [removeSession(name)] makes [getSession(name)] return null and
    leaves every other name, the session objects and the counter as they
    were; on a name that is not registered it changes nothing, and on a
    registered one the count drops by one. *)
Theorem removeSession_getSession (name : string) (st : Store) :
  getSession name (removeSession name st) = None
  ∧ (∀ other, other ≠ name →
       getSession other (removeSession name st) = getSession other st)
  ∧ heap (removeSession name st) = heap st
  ∧ sessionCounter (removeSession name st) = sessionCounter st
  ∧ match getSession name st with
    | None => removeSession name st = st
    | Some _ => S (getSessionCount (removeSession name st)) = getSessionCount st
    end.
Proof.
  unfold getSession, getSessionCount, removeSession. simpl.
  split; [apply lookup_delete_eq|].
  split; [intros other Ho; by rewrite lookup_delete_ne|].
  split; [done|]. split; [done|].
  destruct (sessions st !! name) as [r|] eqn:Hn.
  - rewrite map_size_delete, Hn.
    assert (size (sessions st) ≠ 0); [|lia].
    intros H0. apply map_size_empty_inv in H0. rewrite H0 in Hn.
    by rewrite lookup_empty in Hn.
  - destruct st as [h m n]. simpl in *. f_equal. by apply delete_id.
Qed.

(** X4. [clearAll()] empties the registry and resets the counter, so that
    the next [createSession()] is named [session-0] again; session objects
    handed out earlier are not touched. *)
Theorem clearAll_resets (st : Store) :
  getSessionCount (clearAll st) = 0
  ∧ (∀ name, getSession name (clearAll st) = None)
  ∧ heap (clearAll st) = heap st
  ∧ ∃ st', createSession None (clearAll st) = (inr (length (heap st)), st')
           ∧ getSession "session-0" st' = Some (length (heap st))
           ∧ getSessionCount st' = 1
           ∧ sessionCounter st' = 1.
Proof.
  split; [reflexivity|]. split; [intros name; apply lookup_empty|].
  split; [reflexivity|].
  eexists. split; [reflexivity|]. repeat split.
Qed.

(** *** The registry stays well formed *)

(** The two ways [createSession] can end, whatever the name. *)
Lemma createSession_cases (name : option string) (st : Store) :
  ∃ sessionId counter,
    (is_Some (sessions st !! sessionId)
     ∧ createSession name st
       = (inl (duplicate_error sessionId),
          {| heap := heap st; sessions := sessions st; sessionCounter := counter |}))
    ∨ (sessions st !! sessionId = None
       ∧ createSession name st
         = (inr (length (heap st)),
            {| heap := heap st ++ [new_ChromeSession sessionId];
               sessions := <[sessionId := length (heap st)]> (sessions st);
               sessionCounter := counter |})).
Proof.
  unfold createSession.
  destruct name as [[|c s]|];
    match goal with
    | |- context [sessions st !! ?k] =>
        destruct (sessions st !! k) eqn:Hk; eexists k, _;
        [left; split; [by eexists|reflexivity] | right; split; [exact Hk|reflexivity]]
    end.
Qed.

Lemma well_formed_insert (h : list ChromeSession) (m : gmap string Ref) (n : nat)
    (sessionId : string) :
  well_formed {| heap := h; sessions := m; sessionCounter := n |} →
  ∀ n', well_formed {| heap := h ++ [new_ChromeSession sessionId];
                       sessions := <[sessionId := length h]> m;
                       sessionCounter := n' |}.
Proof.
  intros Hwf n' name r. simpl. intros Hr.
  apply lookup_insert_Some in Hr as [[<- <-]|[Hne Hr]].
  - exists (new_ChromeSession sessionId).
    by rewrite lookup_app_r, Nat.sub_diag by lia.
  - destruct (Hwf name r Hr) as (s & Hs & Hid). exists s. split; [|done].
    simpl in Hs. rewrite lookup_app_l; [done|]. by eapply lookup_lt_Some.
Qed.

Lemma well_formed_createSession (name : option string) (st : Store) :
  well_formed st → well_formed (createSession name st).2.
Proof.
  intros Hwf. destruct st as [h m n].
  destruct (createSession_cases name {| heap := h; sessions := m; sessionCounter := n |})
    as (sessionId & counter & [[_ ->]|[_ ->]]); simpl.
  - exact Hwf.
  - by apply well_formed_insert with (n := n).
Qed.

Lemma well_formed_removeSession (name : string) (st : Store) :
  well_formed st → well_formed (removeSession name st).
Proof.
  intros Hwf key r. simpl. intros Hr.
  apply lookup_delete_Some in Hr as [_ Hr]. by apply Hwf.
Qed.

Lemma well_formed_store_setTabId (r : Ref) (n : Z) (st : Store) :
  well_formed st → well_formed (store_setTabId r n st).
Proof.
  intros Hwf. unfold store_setTabId.
  destruct (heap st !! r) as [s|] eqn:Hs; [|done].
  intros key r'. simpl. intros Hr'.
  destruct (Hwf key r' Hr') as (s' & Hs' & Hid).
  destruct (decide (r' = r)) as [->|Hne].
  - exists (setTabId n s). split.
    + apply list_lookup_insert_eq. by eapply lookup_lt_Some.
    + simpl. congruence.
  - exists s'. by rewrite list_lookup_insert_ne.
Qed.

Lemma well_formed_task_effect (o : option Z) (r : Ref) (st : Store) :
  well_formed st → well_formed (task_effect o r st).
Proof. destruct o; simpl; [apply well_formed_store_setTabId|done]. Qed.

Section WellFormed.
Context {T : Type}.
Implicit Types (f : Fanout T).

Lemma well_formed_settle (cleanup : bool) f (i : nat) :
  well_formed (store f) → well_formed (store (settle cleanup f i)).
Proof.
  intros Hwf. unfold settle.
  destruct (wrappers f !! i) as [[task r|s]|]; try done.
  destruct (heap (store f) !! r) as [session|]; [|done]. simpl.
  fold (task_effect (setsTabId (task session)) r (store f)).
  destruct cleanup.
  - by apply well_formed_removeSession, well_formed_task_effect.
  - by apply well_formed_task_effect.
Qed.

Lemma well_formed_foldl_settle (cleanup : bool) (schedule : list nat) :
  ∀ f, well_formed (store f) →
       well_formed (store (foldl (settle cleanup) f schedule)).
Proof.
  induction schedule as [|i schedule IH]; intros f Hwf; simpl; [done|].
  by apply IH, well_formed_settle.
Qed.

Lemma well_formed_spawn_ephemeral (tasks : list (Task T)) :
  ∀ index f, well_formed (store f) →
             well_formed (store (spawn_ephemeral index tasks f)).
Proof.
  induction tasks as [|task tasks IH]; intros index f Hwf; simpl; [done|].
  pose proof (well_formed_createSession (Some (parallel_name index)) _ Hwf) as Hc.
  destruct (createSession (Some (parallel_name index)) (store f)) as [[e|r] st'];
    by apply IH.
Qed.

Lemma well_formed_spawn_named (sessionNames : list string) :
  ∀ (tasks : list (Task T)) f,
    well_formed (store f) → well_formed (store (spawn_named sessionNames tasks f)).
Proof.
  induction sessionNames as [|name names IH]; intros [|task tasks] f Hwf; simpl;
    try done.
  destruct (getSession name (store f)) as [r|]; [by apply IH|].
  pose proof (well_formed_createSession (Some name) _ Hwf) as Hc.
  destruct (createSession (Some name) (store f)) as [[e|r] st']; by apply IH.
Qed.

Lemma well_formed_registry_step (st : Store) (o : RegistryOp T) :
  well_formed st → well_formed (registry_step st o).
Proof.
  intros Hwf. destruct o as [name|name| |r n|tasks schedule|names tasks schedule]; simpl.
  - by apply well_formed_createSession.
  - by apply well_formed_removeSession.
  - intros key r. simpl. by rewrite lookup_empty.
  - by apply well_formed_store_setTabId.
  - by apply well_formed_foldl_settle, well_formed_spawn_ephemeral.
  - unfold runParallelWithSessions.
    destruct (negb (length names =? length tasks)); [done|].
    by apply well_formed_foldl_settle, well_formed_spawn_named.
Qed.

(** X5. Whatever sequence of [createSession], [removeSession], [clearAll],
    [setTabId], [runParallel] and [runParallelWithSessions] calls a registry
    has seen, with whatever tasks settling in whatever order, every name it
    holds refers to a live session object whose id is that name. *)
Theorem registry_well_formed (ops : list (RegistryOp T)) :
  well_formed (foldl registry_step new_SessionManager ops).
Proof.
  assert (H : ∀ st, well_formed st → well_formed (foldl registry_step st ops)).
  { induction ops as [|o ops IH]; intros st Hwf; simpl; [done|].
    by apply IH, well_formed_registry_step. }
  apply H. intros key r. simpl. by rewrite lookup_empty.
Qed.
End WellFormed.

(** *** Named sessions persist *)

(** [createSession] never drops or rebinds a name. *)
Lemma createSession_keeps (name : option string) (st : Store) (key : string) (r : Ref) :
  sessions st !! key = Some r → sessions (createSession name st).2 !! key = Some r.
Proof.
  intros Hkey.
  destruct (createSession_cases name st) as (sessionId & counter & [[_ ->]|[Hfree ->]]);
    simpl; [done|].
  rewrite lookup_insert_ne; [done|]. congruence.
Qed.

(** Without cleanup, a settling task leaves the registry's map alone. *)
Lemma settle_named_sessions {T : Type} (f : Fanout T) (i : nat) :
  sessions (store (settle false f i)) = sessions (store f).
Proof.
  unfold settle.
  destruct (wrappers f !! i) as [[task r|s]|]; try done.
  destruct (heap (store f) !! r) as [session|]; [|done]. simpl.
  fold (task_effect (setsTabId (task session)) r (store f)).
  apply task_effect_frame.
Qed.

Lemma foldl_settle_named_sessions {T : Type} (schedule : list nat) :
  ∀ f : Fanout T,
    sessions (store (foldl (settle false) f schedule)) = sessions (store f).
Proof.
  induction schedule as [|i schedule IH]; intros f; simpl; [done|].
  by rewrite IH, settle_named_sessions.
Qed.

Lemma spawn_named_registers {T : Type} (sessionNames : list string) :
  ∀ (tasks : list (Task T)) (f : Fanout T),
    length sessionNames = length tasks →
    (∀ key r, sessions (store f) !! key = Some r →
              sessions (store (spawn_named sessionNames tasks f)) !! key = Some r)
    ∧ (∀ name, name ∈ sessionNames → name ≠ EmptyString →
               is_Some (sessions (store (spawn_named sessionNames tasks f)) !! name)).
Proof.
  induction sessionNames as [|name names IH]; intros [|task tasks] f Hlen;
    simpl in Hlen; try discriminate.
  { split; [done|]. intros name Hin. by apply elem_of_nil in Hin. }
  injection Hlen as Hlen. simpl. unfold getSession.
  destruct (sessions (store f) !! name) as [r|] eqn:Hname.
  - destruct (IH tasks (push_running task r (store f) f) Hlen) as [Hkeep Hreg].
    split; [exact Hkeep|].
    intros name' Hin Hne. apply elem_of_cons in Hin as [->|Hin]; [|by apply Hreg].
    exists r. by apply Hkeep.
  - pose proof (createSession_keeps (Some name) (store f)) as Hk.
    assert (Hnew : name ≠ EmptyString →
                   is_Some (sessions (createSession (Some name) (store f)).2 !! name)).
    { intros Hne. destruct name as [|c s]; [done|].
      rewrite createSession_named, Hname. simpl. rewrite lookup_insert_eq. by eexists. }
    destruct (createSession (Some name) (store f)) as [[e|r] st']; simpl in Hk, Hnew.
    + destruct (IH tasks (push_rejected e st' f) Hlen) as [Hkeep Hreg].
      split; [intros key r Hr; by apply Hkeep, Hk|].
      intros name' Hin Hne. apply elem_of_cons in Hin as [->|Hin]; [|by apply Hreg].
      destruct (Hnew Hne) as [r Hr]. exists r. by apply Hkeep.
    + destruct (IH tasks (push_running task r st' f) Hlen) as [Hkeep Hreg].
      split; [intros key r0 Hr; by apply Hkeep, Hk|].
      intros name' Hin Hne. apply elem_of_cons in Hin as [->|Hin]; [|by apply Hreg].
      destruct (Hnew Hne) as [r0 Hr]. exists r0. by apply Hkeep.
Qed.

(** X6. After [runParallelWithSessions] with lists of equal length, however
    far the tasks have settled and however they ended, every name that was
    registered before still refers to the same session object, and every
    non-empty name of [sessionNames] is registered and refers to a session
    with that id: the sessions the call creates are not cleaned up. *)
Theorem runParallelWithSessions_sessions_persist {T : Type}
    (sessionNames : list string) (tasks : list (Task T)) (schedule : list nat)
    (st : Store) :
  length sessionNames = length tasks →
  well_formed st →
  let f := runParallelWithSessions sessionNames tasks schedule st in
  (∀ key r, getSession key st = Some r → getSession key (store f) = Some r)
  ∧ (∀ name, name ∈ sessionNames → name ≠ EmptyString →
       ∃ r s, getSession name (store f) = Some r
              ∧ heap (store f) !! r = Some s
              ∧ getSessionId s = name).
Proof.
  intros Hlen Hwf f.
  assert (Hwf' : well_formed (store f)).
  { apply (well_formed_registry_step st
             (DoRunParallelWithSessions sessionNames tasks schedule) Hwf). }
  assert (Hs : sessions (store f)
               = sessions (store (spawn_named sessionNames tasks (begin_call st)))).
  { unfold f, runParallelWithSessions. rewrite Hlen, Nat.eqb_refl. simpl.
    apply foldl_settle_named_sessions. }
  destruct (spawn_named_registers sessionNames tasks (begin_call st) Hlen)
    as [Hkeep Hreg].
  unfold getSession. rewrite Hs. split; [exact Hkeep|].
  intros name Hin Hne. destruct (Hreg name Hin Hne) as [r Hr].
  rewrite <- Hs in Hr. destruct (Hwf' name r Hr) as (s & Hheap & Hid).
  exists r, s. by rewrite <- Hs.
Qed.

Lemma runParallelWithSessions_sessions_persist_witness :
  ∃ r s,
    getSession "session-B"
      (store (runParallelWithSessions ["session-A"; "session-B"]
                [returns_7; throws_boom] [1] new_SessionManager)) = Some r
    ∧ heap (store (runParallelWithSessions ["session-A"; "session-B"]
                     [returns_7; throws_boom] [1] new_SessionManager)) !! r = Some s
    ∧ getSessionId s = "session-B".
Proof.
  assert (Hwf : well_formed new_SessionManager).
  { intros key r H. simpl in H. by rewrite lookup_empty in H. }
  pose proof (runParallelWithSessions_sessions_persist
                ["session-A"; "session-B"] [returns_7; throws_boom] [1]
                new_SessionManager eq_refl Hwf) as [_ H].
  apply (H "session-B"); [set_solver|discriminate].
Defined.

(** *** Which failure [runParallel] reports *)

Section FirstFailure.
Context {T : Type} (tasks : list (Task T)) (st0 : Store).
Implicit Types (f : Fanout T).

Lemma foldl_settle_first_failure (schedule : list nat) :
  ∀ f, in_flight tasks st0 f →
       rejection (foldl (settle true) f schedule)
       = match rejection f with
         | Some e => Some e
         | None => first_failure tasks schedule
         end.
Proof.
  induction schedule as [|i schedule IH]; intros f Hf; simpl.
  { by destruct (rejection f). }
  rewrite (IH _ (settle_in_flight tasks st0 f i Hf)).
  destruct Hf as (Hlen & Hheap & Hc & Hout & Hidx & Hrej & Hsome).
  destruct (tasks !! i) as [task|] eqn:Htask; simpl.
  - destruct (Hidx i task Htask) as [(Hw & Hh & Hs)|(Hw & _)].
    + unfold settle. rewrite Hw. unfold Ref in *. rewrite Hh. simpl.
      fold (outcome i task).
      destruct (outcome i task) as [v|e]; [done|].
      by destruct (rejection f).
    + rewrite (settle_settled _ _ _ _ Hw).
      destruct (rejection f) as [e0|] eqn:Hr; [done|].
      destruct (outcome i task) as [v|e] eqn:Ho; [done|].
      destruct (Hsome i e Hw) as [e' He']. congruence.
  - assert (Hnone : wrappers f !! i = None).
    { apply lookup_ge_None. rewrite Hlen. by apply lookup_ge_None. }
    unfold settle. by rewrite Hnone.
Qed.
End FirstFailure.

(** X7. When the names [parallel-0] ... [parallel-(N-1)] are free,
    [runParallel] is rejected exactly when some task that has settled
    rejected, and the error it reports is that of the first such task in the
    order of settling; failures that come later do not replace it. *)
Theorem runParallel_first_failure {T : Type}
    (tasks : list (Task T)) (schedule : list nat) (st : Store) :
  (∀ i, i < length tasks → sessions st !! parallel_name i = None) →
  match first_failure tasks schedule with
  | Some e => returned (runParallel tasks schedule st) = Rejected e
  | None => ∀ e, returned (runParallel tasks schedule st) ≠ Rejected e
  end.
Proof.
  intros Hfresh.
  assert (H0 : spawned st tasks (spawn_ephemeral 0 tasks (begin_call st))).
  { apply (spawn_ephemeral_fresh st tasks [] (begin_call st)); [apply spawned_begin|].
    exact Hfresh. }
  pose proof (foldl_settle_first_failure tasks st schedule _
                (spawned_in_flight tasks st _ H0)) as Hr.
  destruct H0 as (_ & _ & _ & Hnone & _). rewrite Hnone in Hr.
  fold (runParallel tasks schedule st) in Hr.
  unfold returned. rewrite Hr.
  destruct (first_failure tasks schedule) as [e|]; [done|].
  intros e. by destruct (all_fulfilled _).
Qed.

Lemma runParallel_first_failure_witness :
  returned (runParallel [returns_7; throws_boom; returns_7] [2; 1; 0] new_SessionManager)
  = Rejected (ErrorObject "boom").
Proof.
  apply (runParallel_first_failure [returns_7; throws_boom; returns_7] [2; 1; 0]
           new_SessionManager (λ i _, lookup_empty _)).
Defined.

(** *** What [runParallel] leaves alone *)

Section Guests.
Context {T : Type} (st0 : Store).
Implicit Types (f : Fanout T).

Lemma guests_only_length f :
  guests_only st0 f → length (heap st0) ≤ length (heap (store f)).
Proof.
  intros (_ & Hheap & _).
  destruct (length (heap st0)) as [|n] eqn:Hn; [lia|].
  specialize (Hheap n ltac:(lia)).
  destruct (lookup_lt_is_Some_2 (heap st0) n ltac:(lia)) as [s Hs].
  rewrite Hs in Hheap. apply lookup_lt_Some in Hheap. lia.
Qed.

Lemma guests_only_begin : guests_only (T := T) st0 (begin_call st0).
Proof. repeat split; simpl; try done. Qed.

Lemma guests_only_spawn (tasks : list (Task T)) :
  ∀ index f, guests_only st0 f → guests_only st0 (spawn_ephemeral index tasks f).
Proof.
  induction tasks as [|task tasks IH]; intros index f Hg; simpl; [done|].
  pose proof (guests_only_length f Hg) as Hlen.
  destruct Hg as (Hkeys & Hheap & Hc & Hrun).
  rewrite createSession_parallel.
  destruct (sessions (store f) !! parallel_name index) as [r0|] eqn:Hname; apply IH.
  - (* the name is taken: the wrapper is rejected, nothing is created *)
    split; [exact Hkeys|]. split; [exact Hheap|]. split; [exact Hc|].
    intros i task' r Hi. simpl in Hi.
    apply lookup_app_Some in Hi as [Hi|[_ Hi]]; [by eapply Hrun|].
    destruct (i - length (wrappers f)) as [|k]; simpl in Hi; [discriminate|].
    by rewrite lookup_nil in Hi.
  - (* a new session is made for this task *)
    assert (Hfree : sessions st0 !! parallel_name index = None).
    { destruct (sessions st0 !! parallel_name index) as [r|] eqn:H0; [|done].
      apply Hkeys in H0. congruence. }
    split; [|split; [|split]]; simpl.
    + intros key r Hr. rewrite lookup_insert_ne; [by apply Hkeys|]. congruence.
    + intros r Hr. rewrite lookup_app_l by lia. by apply Hheap.
    + exact Hc.
    + intros i task' r Hi.
      apply lookup_app_Some in Hi as [Hi|[_ Hi]].
      * destruct (Hrun i task' r Hi) as (Hge & s & Hs & Hid).
        split; [exact Hge|]. exists s. split; [|exact Hid].
        rewrite lookup_app_l; [done|]. by eapply lookup_lt_Some.
      * destruct (i - length (wrappers f)) as [|k]; simpl in Hi;
          [|by rewrite lookup_nil in Hi].
        injection Hi as <- <-. split; [exact Hlen|].
        exists (new_ChromeSession (parallel_name index)).
        by rewrite lookup_app_r, Nat.sub_diag by lia.
Qed.

Lemma task_effect_own (o : option Z) (r : Ref) (st : Store) (s : ChromeSession) :
  heap st !! r = Some s →
  ∃ s', heap (task_effect o r st) !! r = Some s' ∧ sessionId s' = sessionId s.
Proof.
  intros Hs. destruct o as [n|]; simpl; [|by exists s].
  unfold store_setTabId. rewrite Hs. simpl. exists (setTabId n s).
  split; [|done]. apply list_lookup_insert_eq. by eapply lookup_lt_Some.
Qed.

Lemma guests_only_settle f (i : nat) :
  guests_only st0 f → guests_only st0 (settle true f i).
Proof.
  intros Hg. destruct Hg as (Hkeys & Hheap & Hc & Hrun).
  unfold settle.
  destruct (wrappers f !! i) as [[task r|s]|] eqn:Hwi;
    [|exact (conj Hkeys (conj Hheap (conj Hc Hrun)))..].
  destruct (Hrun i task r Hwi) as (Hge & session & Hs & Hid).
  unfold Ref in *. rewrite Hs.
  fold (task_effect (setsTabId (task session)) r (store f)).
  destruct (task_effect_frame (setsTabId (task session)) r (store f))
    as (Es & Ec & El & Eh).
  destruct (task_effect_own (setsTabId (task session)) r (store f) session Hs)
    as (s' & Hs' & Hid').
  set (st1 := task_effect _ _ _) in *.
  split; [|split; [|split]]; simpl.
  - intros key r0 Hr. rewrite lookup_delete_ne, Es; [by apply Hkeys|].
    unfold getSessionId. intros Heq. rewrite Heq in Hid. unfold Ref in *. congruence.
  - intros r0 Hr. rewrite Eh by lia. by apply Hheap.
  - by rewrite Ec.
  - intros j task' r' Hj.
    destruct (decide (j = i)) as [->|Hne].
    + rewrite list_lookup_insert_eq in Hj by (by eapply lookup_lt_Some). discriminate.
    + rewrite list_lookup_insert_ne in Hj by done.
      destruct (Hrun j task' r' Hj) as (Hge' & s0 & Hs0 & Hid0).
      split; [exact Hge'|].
      destruct (decide (r' = r)) as [->|Hr'].
      * exists s'. split; [exact Hs'|]. rewrite Hid'. exact Hid.
      * exists s0. split; [by rewrite Eh|exact Hid0].
Qed.

Lemma guests_only_foldl_settle (schedule : list nat) :
  ∀ f, guests_only st0 f → guests_only st0 (foldl (settle true) f schedule).
Proof.
  induction schedule as [|i schedule IH]; intros f Hg; simpl; [done|].
  by apply IH, guests_only_settle.
Qed.
End Guests.

(** X9. [runParallel] never touches what was there before the call: on any
    registry, with any tasks and however far they have settled, every name
    registered before still refers to the same session object, every session
    object that existed before is unchanged (id and tab handle), and the
    name counter is as it was. *)
Theorem runParallel_leaves_residents {T : Type}
    (tasks : list (Task T)) (schedule : list nat) (st : Store) :
  (∀ key r, getSession key st = Some r →
            getSession key (store (runParallel tasks schedule st)) = Some r)
  ∧ (∀ r, r < length (heap st) →
          heap (store (runParallel tasks schedule st)) !! r = heap st !! r)
  ∧ sessionCounter (store (runParallel tasks schedule st)) = sessionCounter st.
Proof.
  destruct (guests_only_foldl_settle st schedule _
              (guests_only_spawn st tasks 0 _ (guests_only_begin st)))
    as (Hkeys & Hheap & Hc & _).
  by repeat split.
Qed.

(** *** Which session a named task runs on *)

Lemma spawn_named_wrappers {T : Type} (sessionNames : list string) :
  ∀ (tasks : list (Task T)) (f : Fanout T),
    length sessionNames = length tasks →
    (∀ name, name ∈ sessionNames → name ≠ EmptyString) →
    (∀ k w, wrappers f !! k = Some w →
            wrappers (spawn_named sessionNames tasks f) !! k = Some w)
    ∧ ∀ k name task,
        sessionNames !! k = Some name → tasks !! k = Some task →
        ∃ r, wrappers (spawn_named sessionNames tasks f) !! (length (wrappers f) + k)
             = Some (Running task r)
             ∧ sessions (store (spawn_named sessionNames tasks f)) !! name = Some r.
Proof.
  induction sessionNames as [|name names IH]; intros [|task tasks] f Hlen Hne;
    simpl in Hlen; try discriminate.
  { split; [done|]. intros k name task Hk. by rewrite lookup_nil in Hk. }
  injection Hlen as Hlen.
  assert (Hne' : ∀ n, n ∈ names → n ≠ EmptyString).
  { intros n Hn. apply Hne. apply elem_of_cons; by right. }
  assert (Hname : name ≠ EmptyString) by (apply Hne; apply elem_of_cons; by left).
  assert (Hstep : ∃ r st',
            spawn_named (name :: names) (task :: tasks) f
            = spawn_named names tasks (push_running task r st' f)
            ∧ sessions st' !! name = Some r).
  { simpl. unfold getSession.
    destruct (sessions (store f) !! name) as [r|] eqn:Hn; [by exists r, (store f)|].
    destruct name as [|c s]; [done|].
    rewrite createSession_named, Hn. eexists _, _. split; [reflexivity|].
    simpl. apply lookup_insert_eq. }
  destruct Hstep as (r & st' & -> & Hr).
  destruct (IH tasks (push_running task r st' f) Hlen Hne') as [Hold Hnew].
  destruct (spawn_named_registers names tasks (push_running task r st' f) Hlen)
    as [Hkeep _].
  split.
  - intros k w Hk. apply Hold. simpl. by apply lookup_app_l_Some.
  - intros [|k] name' task' Hk Ht; simpl in Hk, Ht.
    + injection Hk as <-. injection Ht as <-. exists r. split.
      * rewrite Nat.add_0_r. apply Hold. simpl.
        by rewrite lookup_app_r, Nat.sub_diag by lia.
      * by apply Hkeep.
    + destruct (Hnew k name' task' Hk Ht) as (r' & Hw & Hs).
      exists r'. split; [|done].
      simpl in Hw. rewrite length_app in Hw. simpl in Hw.
      by replace (length (wrappers f) + S k) with (length (wrappers f) + 1 + k) by lia.
Qed.

(** X8. When [runParallelWithSessions] starts its tasks (names non-empty,
    lists of equal length), task [k] is given the session object that the
    registry then holds under [sessionNames[k]]; two tasks that are given the
    same name are therefore given the same object, and what one writes with
    [setTabId] the other reads. *)
Theorem spawn_named_shares_sessions {T : Type}
    (sessionNames : list string) (tasks : list (Task T)) (st : Store) :
  length sessionNames = length tasks →
  (∀ name, name ∈ sessionNames → name ≠ EmptyString) →
  let f := spawn_named sessionNames tasks (begin_call st) in
  (∀ k name task,
     sessionNames !! k = Some name → tasks !! k = Some task →
     ∃ r, wrappers f !! k = Some (Running task r)
          ∧ getSession name (store f) = Some r)
  ∧ (∀ j k name task_j task_k r_j r_k,
       sessionNames !! j = Some name → sessionNames !! k = Some name →
       wrappers f !! j = Some (Running task_j r_j) →
       wrappers f !! k = Some (Running task_k r_k) →
       r_j = r_k).
Proof.
  intros Hlen Hne f.
  destruct (spawn_named_wrappers sessionNames tasks (begin_call st) Hlen Hne)
    as [_ Hnew].
  assert (H1 : ∀ k name task,
            sessionNames !! k = Some name → tasks !! k = Some task →
            ∃ r, wrappers f !! k = Some (Running task r)
                 ∧ getSession name (store f) = Some r).
  { intros k name task Hk Ht. exact (Hnew k name task Hk Ht). }
  split; [exact H1|].
  intros j k name task_j task_k r_j r_k Hj Hk Hwj Hwk.
  destruct (lookup_lt_is_Some_2 tasks j) as [tj Htj].
  { rewrite <- Hlen. by eapply lookup_lt_Some. }
  destruct (lookup_lt_is_Some_2 tasks k) as [tk Htk].
  { rewrite <- Hlen. by eapply lookup_lt_Some. }
  destruct (H1 j name tj Hj Htj) as (rj & Hwj' & Hsj).
  destruct (H1 k name tk Hk Htk) as (rk & Hwk' & Hsk).
  unfold Ref in *. congruence.
Qed.


Lemma spawn_named_shares_sessions_witness :
  (∃ r, wrappers (spawn_named ["A"; "A"] [sets_tab_5; readTabId]
                    (begin_call new_SessionManager)) !! 1
        = Some (Running readTabId r)
        ∧ getSession "A" (store (spawn_named ["A"; "A"] [sets_tab_5; readTabId]
                                   (begin_call new_SessionManager))) = Some r)
  ∧ returned (runParallelWithSessions ["A"; "A"] [sets_tab_5; readTabId] [0; 1]
                new_SessionManager) = Fulfilled [None; Some 5%Z]
  ∧ returned (runParallelWithSessions ["A"; "A"] [sets_tab_5; readTabId] [1; 0]
                new_SessionManager) = Fulfilled [None; None].
Proof.
  split; [|split; vm_compute; reflexivity].
  assert (Hne : ∀ name, name ∈ ["A"; "A"] → name ≠ EmptyString).
  { intros name Hin ->.
    apply elem_of_cons in Hin as [Hin|Hin]; [discriminate|].
    apply elem_of_cons in Hin as [Hin|Hin]; [discriminate|].
    by apply elem_of_nil in Hin. }
  destruct (spawn_named_shares_sessions ["A"; "A"] [sets_tab_5; readTabId]
              new_SessionManager eq_refl Hne) as [H _].
  exact (H 1 "A" readTabId eq_refl eq_refl).
Defined.

End SessionFacts.

(** ** ChromeMCPClient *)
Module McpFacts.
Import Js Mcp McpProps.

Section Client.
Variable JSON_stringify : list ContentItem → string.

(** The two ways [ensureConnection] can end. *)
Lemma ensureConnection_available (attempt : Attempt) (c : ChromeMCPClient) :
  connection_available attempt c = true →
  ∃ c', ensureConnection attempt c = (None, c') ∧ is_Some (client c').
Proof.
  unfold connection_available, ensureConnection. intros H.
  destruct (isConnected c && bool_decide (is_Some (client c))) eqn:Hc.
  - exists c. split; [done|].
    apply andb_true_iff in Hc as [_ Hc]. by apply bool_decide_eq_true in Hc.
  - destruct attempt; [|done]. eexists. split; [done|]. by eexists.
Qed.

Lemma ensureConnection_unavailable (attempt : Attempt) (c : ChromeMCPClient) :
  connection_available attempt c = false →
  ∃ e c', attempt = ConnectFails e ∧ ensureConnection attempt c = (Some e, c').
Proof.
  unfold connection_available, ensureConnection. intros H.
  apply orb_false_iff in H as [-> H].
  destruct attempt as [|e]; [done|]. by eexists _, _.
Qed.

(** C4, amended. [callTool] always returns a result value and never
    throws. A connection or transport failure gives [{success:false}] with
    [error] set to the message of the [Error] that was thrown (or to the text
    of any other thrown value), a result flagged [isError] gives
    [{success:false}] with ["Tool execution failed: "] and the serialized
    content in [error], anything else gives [{success:true}] with [data] set.
    Whenever [success] is false [error] is present (and [data] is not), and
    it is the empty string only when the value thrown has an empty text;
    whenever [success] is true [data] is present (and [error] is not). *)
Theorem callTool_returns_value
    (toolName params : string) (attempt : Attempt) (remote : Remote)
    (c : ChromeMCPClient) :
  ∃ r c',
    callTool JSON_stringify toolName params attempt remote c = (inr r, c')
    ∧ (success r = false → is_Some (error r) ∧ data r = None)
    ∧ (success r = true → is_Some (data r) ∧ error r = None)
    ∧ (∀ e, connection_available attempt c = false → attempt = ConnectFails e →
            r = failure match e with
                        | ErrorObject message => message
                        | OtherValue text => text
                        end)
    ∧ (∀ e, connection_available attempt c = true → remote = RemoteThrows e →
            r = failure match e with
                        | ErrorObject message => message
                        | OtherValue text => text
                        end)
    ∧ (∀ callResult,
         connection_available attempt c = true →
         remote = RemoteReturns callResult →
         if default false (isError callResult)
         then r = failure ("Tool execution failed: " +:+ JSON_stringify (content callResult))
         else success r = true
              ∧ error r = None
              ∧ data r = Some (match textContent (content callResult) with
                               | EmptyString => DataContent (content callResult)
                               | text => DataText text
                               end))
    ∧ (success r = false → populated (error r) = false →
       ∃ e, (attempt = ConnectFails e ∨ remote = RemoteThrows e)
            ∧ (e = ErrorObject EmptyString ∨ e = OtherValue EmptyString)).
Proof.
  assert (Hempty : ∀ e, populated (Some (message_of e)) = false →
                        e = ErrorObject EmptyString ∨ e = OtherValue EmptyString).
  { intros [[|a m]|[|a t]]; simpl; intros H; try discriminate H; auto. }
  unfold callTool, callTool_try.
  destruct (connection_available attempt c) eqn:Hav.
  - destruct (ensureConnection_available _ _ Hav) as (c' & -> & [cl Hcl]).
    rewrite Hcl. destruct remote as [callResult|e].
    + destruct (default false (isError callResult)) eqn:Herr.
      * eexists _, _. split; [reflexivity|]. simpl.
        repeat split; try done; try by eexists.
        intros cr _ [= <-]. by rewrite Herr.
      * eexists _, _. split; [reflexivity|]. simpl.
        repeat split; try done; try by eexists.
        intros cr _ [= <-]. rewrite Herr.
        repeat split. by destruct (textContent (content callResult)).
    + eexists _, _. split; [reflexivity|]. simpl.
      repeat split; try done; try by eexists.
      * by intros e' _ [= <-]; destruct e.
      * intros _ Hpop. exists e. split; [by right|by apply Hempty].
  - destruct (ensureConnection_unavailable _ _ Hav) as (e & c' & -> & ->).
    eexists _, _. split; [reflexivity|]. simpl.
    repeat split; try done; try by eexists.
    * by intros e' _ [= <-]; destruct e.
    * intros _ Hpop. exists e. split; [by left|by apply Hempty].
Qed.

(** [callTool] changes the client only through [ensureConnection]. *)
Lemma callTool_state (toolName params : string) (attempt : Attempt) (remote : Remote)
    (c : ChromeMCPClient) :
  (callTool JSON_stringify toolName params attempt remote c).2
  = (ensureConnection attempt c).2.
Proof.
  unfold callTool, callTool_try.
  destruct (ensureConnection attempt c) as [[e|] c']; [done|].
  destruct (client c'); [|done]. destruct remote as [cr|e]; [|done].
  by destruct (default false (isError cr)).
Qed.

(** Every operation keeps: connected only if the client is present. *)
Lemma exec_keeps_client (c : ChromeMCPClient) (o : Op) :
  (isConnected c = true → is_Some (client c)) →
  isConnected (exec JSON_stringify c o) = true →
  is_Some (client (exec JSON_stringify c o)).
Proof.
  intros Hinv.
  assert (He : ∀ attempt,
            isConnected (ensureConnection attempt c).2 = true →
            is_Some (client (ensureConnection attempt c).2)).
  { intros attempt. unfold ensureConnection.
    destruct (isConnected c && bool_decide (is_Some (client c))) eqn:Hc; simpl.
    - done.
    - destruct attempt; simpl; intros _; by eexists. }
  destruct o as [attempt|toolName params attempt remote|closing]; simpl.
  - apply He.
  - rewrite callTool_state. apply He.
  - unfold close. destruct (client c) as [cl|] eqn:Hcl.
    + destruct closing; simpl; [|done]. intros _. rewrite Hcl. by eexists.
    + simpl. rewrite Hcl. exact Hinv.
Qed.

(** C2, amended. In every state reached by a sequence of
    [ensureConnection], [callTool] and [close] calls, each run to its end,
    the connected flag is true only if the client object is present. *)
Theorem connected_implies_client (url : option string) (ops : list Op) :
  isConnected (exec_all JSON_stringify (constructor url) ops) = true →
  is_Some (client (exec_all JSON_stringify (constructor url) ops)).
Proof.
  unfold exec_all.
  assert (H : ∀ c, (isConnected c = true → is_Some (client c)) →
              isConnected (foldl (exec JSON_stringify) c ops) = true →
              is_Some (client (foldl (exec JSON_stringify) c ops))).
  { induction ops as [|o ops IH]; intros c Hc; simpl; [done|].
    apply IH. by apply exec_keeps_client. }
  apply H. simpl. discriminate.
Qed.
End Client.

Lemma connected_implies_client_witness :
  is_Some (client (exec_all json_placeholder (constructor None)
                     [OpCallTool "mcp__claude-in-chrome__navigate" "{}" Connects
                        (RemoteThrows timed_out)])).
Proof.
  apply (connected_implies_client json_placeholder None). reflexivity.
Defined.

(** C2 does not hold after a failed connection attempt: [ensureConnection]
    stores the new client before it connects, and its [catch] resets only
    the flag. *)
Lemma client_present_after_failed_connect :
  client (exec_all json_placeholder (constructor None)
            [OpCallTool "mcp__claude-in-chrome__navigate" "{}" (ConnectFails refused)
               (RemoteThrows timed_out)]) = Some new_Client
  ∧ isConnected (exec_all json_placeholder (constructor None)
                   [OpCallTool "mcp__claude-in-chrome__navigate" "{}"
                      (ConnectFails refused) (RemoteThrows timed_out)]) = false
  ∧ ¬ (is_Some (client (exec_all json_placeholder (constructor None)
                          [OpCallTool "mcp__claude-in-chrome__navigate" "{}"
                             (ConnectFails refused) (RemoteThrows timed_out)]))
       ↔ isConnected (exec_all json_placeholder (constructor None)
                        [OpCallTool "mcp__claude-in-chrome__navigate" "{}"
                           (ConnectFails refused) (RemoteThrows timed_out)]) = true).
Proof.
  split; [reflexivity|]. split; [reflexivity|].
  intros [H _]. specialize (H (ex_intro _ _ eq_refl)). discriminate.
Qed.

(** C4 does not hold as it is stated when the [Error] that is thrown has an
    empty message: [callTool] returns [{success:false, error:''}], so
    [success] is false and [error] is not populated. *)
Lemma callTool_error_not_populated :
  ∃ r c',
    callTool json_placeholder "mcp__claude-in-chrome__navigate" "{}" Connects
      (RemoteThrows silent_error) (constructor None) = (inr r, c')
    ∧ success r = false
    ∧ error r = Some EmptyString
    ∧ ¬ (success r = false → populated (error r) = true).
Proof.
  eexists _, _. split; [reflexivity|]. split; [reflexivity|]. split; [reflexivity|].
  simpl. intros H. specialize (H eq_refl). discriminate H.
Qed.

(** The three outcomes of [callTool] on the test server's kind of answers. *)
Example callTool_outcomes :
  (callTool json_placeholder "mcp__claude-in-chrome__navigate" "{}"
     (ConnectFails refused) (RemoteThrows timed_out) (constructor None)).1
    = inr (failure "connect ECONNREFUSED 127.0.0.1:12306")
  ∧ (callTool json_placeholder "mcp__claude-in-chrome__navigate" "{}" Connects
       (RemoteReturns {| content := [TextContent "no such tab"]; isError := Some true |})
       (constructor None)).1
    = inr (failure "Tool execution failed: [...]")
  ∧ (callTool json_placeholder "mcp__claude-in-chrome__navigate" "{}" Connects
       (RemoteReturns {| content := [TextContent "a"; ImageContent "iVBOR" "image/png";
                                     TextContent "b"];
                         isError := None |})
       (constructor None)).1
    = inr {| success := true; data := Some (DataText ("a" +:+ newline +:+ "b"));
             error := None |}
  ∧ (callTool json_placeholder "mcp__claude-in-chrome__computer" "{}" Connects
       (RemoteReturns {| content := [ImageContent "iVBOR" "image/png"]; isError := None |})
       (constructor None)).1
    = inr {| success := true;
             data := Some (DataContent [ImageContent "iVBOR" "image/png"]);
             error := None |}.
Proof. repeat split; reflexivity. Qed.

(** *** The tool names *)

(** X21. The enum gives every member a name of its own, except that
    [CLICK] and [SCREENSHOT] carry the name of [COMPUTER]: by its name the
    server cannot tell the three apart. *)
Theorem tool_name_shared_only_by_computer (a b : ChromeMCPTool) :
  tool_name a = tool_name b ↔ a = b ∨ (computer_alias a = true ∧ computer_alias b = true).
Proof.
  split.
  - destruct a, b; intros H; try (by left); try (by right); discriminate H.
  - intros [->|[Ha Hb]]; [reflexivity|].
    destruct a; try discriminate Ha; destruct b; try discriminate Hb; reflexivity.
Qed.

(** *** The connection *)

Section Connection.
Variable JSON_stringify : list ContentItem → string.

(** X22. A connected client is reused: [callTool] makes no connection
    attempt (how an attempt would end plays no part in the result) and
    leaves the client as it is, also when the remote call throws. *)
Theorem callTool_reuses_connection
    (toolName params : string) (attempt : Attempt) (remote : Remote)
    (c : ChromeMCPClient) :
  connected c →
  callTool JSON_stringify toolName params attempt remote c
  = ((callTool JSON_stringify toolName params Connects remote c).1, c).
Proof.
  intros [Hc [cl Hcl]]. unfold callTool, callTool_try, ensureConnection.
  rewrite Hc, Hcl. simpl. rewrite Hcl.
  destruct remote as [cr|e]; [|reflexivity].
  destruct (default false (isError cr)); reflexivity.
Qed.

(** X23. Whatever state the client is in, a [callTool] whose connection
    attempt succeeds leaves it connected, also when the tool call itself
    fails or times out: a failed call does not drop the connection. *)
Theorem callTool_leaves_connected
    (toolName params : string) (remote : Remote) (c : ChromeMCPClient) :
  connected (callTool JSON_stringify toolName params Connects remote c).2.
Proof.
  rewrite callTool_state. unfold connected, ensureConnection.
  destruct (isConnected c && bool_decide (is_Some (client c))) eqn:Hc; simpl.
  - apply andb_true_iff in Hc as [Hc Hcl]. by apply bool_decide_eq_true in Hcl.
  - split; [done|by eexists].
Qed.

(** X24. A failed connection attempt leaves a client that was not
    connected unconnected, and the next [callTool] makes a new attempt whose
    outcome decides: success connects, failure is reported in the result. *)
Theorem callTool_retries_after_failure
    (toolName params : string) (e : Thrown) (attempt : Attempt) (remote : Remote)
    (c : ChromeMCPClient) :
  isConnected c = false →
  isConnected (ensureConnection (ConnectFails e) c).2 = false
  ∧ match attempt with
    | Connects =>
        connected (callTool JSON_stringify toolName params attempt remote
                     (ensureConnection (ConnectFails e) c).2).2
    | ConnectFails e' =>
        callTool JSON_stringify toolName params attempt remote
          (ensureConnection (ConnectFails e) c).2
        = (inr (failure (message_of e')), (ensureConnection (ConnectFails e) c).2)
    end.
Proof.
  intros Hc.
  assert (He : ensureConnection (ConnectFails e) c
               = (Some e, {| serverUrl := serverUrl c; client := Some new_Client;
                             isConnected := false |})).
  { unfold ensureConnection. by rewrite Hc. }
  rewrite He. simpl. split; [done|].
  destruct attempt as [|e']; [|reflexivity].
  rewrite callTool_state. split; [done|by eexists].
Qed.

(** *** close *)

(** X25. A [close] that succeeded on a client that held its SDK client
    puts it back where the constructor left it; after a [close] that
    succeeded a further [close] does nothing and does not call the SDK (how
    that call would end plays no part). *)
Theorem close_resets (closing : option Thrown) (c : ChromeMCPClient) :
  (is_Some (client c) → (close None c).2 = constructor (Some (serverUrl c)))
  ∧ close closing (close None c).2 = (None, (close None c).2).
Proof.
  unfold close. destruct (client c) as [cl|] eqn:Hcl; simpl.
  - done.
  - rewrite Hcl. split; [|done]. by intros [? ?].
Qed.

End Connection.

(** *** The data of a successful call *)

Lemma concat_newline_empty (l : list string) :
  String.concat newline l = EmptyString ↔ l = [] ∨ l = [EmptyString].
Proof.
  split.
  - destruct l as [|x [|y l]]; simpl.
    + by left.
    + intros ->. by right.
    + destruct x; discriminate.
  - by intros [->| ->].
Qed.

Lemma textContent_empty (items : list ContentItem) :
  textContent items = EmptyString ↔ texts items = [] ∨ texts items = [EmptyString].
Proof. apply concat_newline_empty. Qed.

(** X26. When the connection is there and the remote call returns a
    result not flagged [isError], [data] is the raw content exactly when the
    content has no text item, or a single text item whose text is empty; in
    every other case it is the text items joined by newlines, and that text
    is not empty. *)
Theorem callTool_data
    (JSON_stringify : list ContentItem → string)
    (toolName params : string) (attempt : Attempt) (callResult : CallToolResult)
    (c : ChromeMCPClient) :
  connection_available attempt c = true →
  default false (isError callResult) = false →
  ∃ d,
    (callTool JSON_stringify toolName params attempt (RemoteReturns callResult) c).1
    = inr {| success := true; data := Some d; error := None |}
    ∧ (d = DataContent (content callResult)
       ↔ texts (content callResult) = [] ∨ texts (content callResult) = [EmptyString])
    ∧ (∀ text, d = DataText text →
         text ≠ EmptyString ∧ text = String.concat newline (texts (content callResult))).
Proof.
  intros Hav Herr. unfold callTool, callTool_try.
  destruct (ensureConnection_available _ _ Hav) as (c' & -> & [cl Hcl]).
  rewrite Hcl, Herr.
  pose proof (textContent_empty (content callResult)) as Hempty.
  destruct (textContent (content callResult)) as [|a text] eqn:Htext.
  - eexists. split; [reflexivity|]. split; [|done].
    split; [intros _; by apply Hempty|done].
  - eexists. split; [reflexivity|]. split.
    + split; [done|]. intros H. apply Hempty in H. discriminate H.
    + intros ? [= <-]. split; [done|]. exact (eq_sym Htext).
Qed.

Lemma callTool_data_witness :
  (callTool json_placeholder (tool_name READ_PAGE) "{}" Connects
     (RemoteReturns {| content := [ImageContent "iVBOR" "image/png"; TextContent EmptyString];
                       isError := Some false |})
     (constructor None)).1
  = inr {| success := true;
           data := Some (DataContent [ImageContent "iVBOR" "image/png";
                                      TextContent EmptyString]);
           error := None |}.
Proof.
  destruct (callTool_data json_placeholder (tool_name READ_PAGE) "{}" Connects
              {| content := [ImageContent "iVBOR" "image/png"; TextContent EmptyString];
                 isError := Some false |}
              (constructor None) eq_refl eq_refl) as (d & He & Hraw & _).
  rewrite He. f_equal. f_equal. f_equal. apply Hraw. by right.
Defined.

(** A client that a first call has connected. *)
Lemma connected_after_call :
  connected (callTool json_placeholder (tool_name NAVIGATE) "{}" Connects
               (RemoteThrows timed_out) (constructor None)).2.
Proof. split; [reflexivity|by eexists]. Defined.

Lemma callTool_reuses_connection_witness :
  callTool json_placeholder (tool_name CLICK) "{}" (ConnectFails refused)
    (RemoteThrows timed_out)
    (callTool json_placeholder (tool_name NAVIGATE) "{}" Connects
       (RemoteThrows timed_out) (constructor None)).2
  = (inr (failure "Request timed out"),
     (callTool json_placeholder (tool_name NAVIGATE) "{}" Connects
        (RemoteThrows timed_out) (constructor None)).2).
Proof.
  exact (callTool_reuses_connection json_placeholder (tool_name CLICK) "{}"
           (ConnectFails refused) (RemoteThrows timed_out) _ connected_after_call).
Defined.

Lemma callTool_retries_after_failure_witness :
  connected (callTool json_placeholder (tool_name NAVIGATE) "{}" Connects
               (RemoteThrows timed_out)
               (ensureConnection (ConnectFails refused) (constructor None)).2).2.
Proof.
  exact (proj2 (callTool_retries_after_failure json_placeholder (tool_name NAVIGATE) "{}"
                  refused Connects (RemoteThrows timed_out) (constructor None) eq_refl)).
Defined.

End McpFacts.
